(** * pygeoprocessing: kernels and routing

    A shallow embedding of [pygeoprocessing/kernels.py] and of the routing
    operations exercised by [tests/test_routing.py], with the properties
    claimed for them.

    Pixel values are floating point numbers in the program.  They are
    modelled in exact arithmetic: real numbers for the kernel rasters
    (whose decay functions use [exp] and [hypot]), canonical rationals for
    the routing grids (whose regression arrays are evaluated).  Where
    rounding decides a property, the routing passes are also run on
    binary64 values. *)

From Stdlib Require Import ZArith List Reals Lra Lia Permutation.
From Stdlib Require Import QArith Qcanon.
From Stdlib Require Floats.PrimFloat.
From stdpp Require Import gmap list.

(** ** Kernel rasters ([kernels.py]) *)

Module Kernels.

Local Open Scope Z_scope.
Local Open Scope R_scope.

Inductive GDALDataType := GDT_Byte | GDT_Int32 | GDT_Float32 | GDT_Float64.

(** A numpy 2D array, as the list of its rows. *)
Definition ndarray := list (list R).

(** The offsets and window sizes yielded by [iterblocks]. *)
Record block_data := mk_block {
  xoff : Z;
  yoff : Z;
  win_xsize : Z;
  win_ysize : Z
}.

(** The kernel raster: a single band GTiff.  [pixels x y] is the value of
    band 1 at column [x], row [y]. *)
Record dataset := mk_dataset {
  RasterXSize : Z;
  RasterYSize : Z;
  DataType : GDALDataType;
  GeoTransform : list Z;
  NoDataValue : option R;
  pixels : Z -> Z -> R
}.

(** [numpy.finfo(numpy.float32).min] *)
Definition FLOAT32_NODATA : R := - ((2 - / 2 ^ 23) * 2 ^ 127).

(** [math.ceil] *)
Definition ceil (x : R) : Z := (- Int_part (- x))%Z.

(** [range(a, b)] over the integers. *)
Definition zrange (a b : Z) : list Z :=
  map (fun k => (a + Z.of_nat k)%Z) (seq 0 (Z.to_nat (b - a))).

(** [numpy.hypot] *)
Definition hypot (a b : R) : R := sqrt (a * a + b * b).

(** [numpy.hypot] applied to the two arrays of
    [numpy.mgrid[ymin:ymax, xmin:xmax]]. *)
Definition hypot_mgrid (ymin ymax xmin xmax : Z) : ndarray :=
  map (fun y => map (fun x => hypot (IZR y) (IZR x)) (zrange xmin xmax))
      (zrange ymin ymax).

(** Element [a[j][i]], when it exists. *)
Definition array_get (a : ndarray) (j i : Z) : option R :=
  if ((0 <=? j) && (0 <=? i))%Z
  then match nth_error a (Z.to_nat j) with
       | Some row => nth_error row (Z.to_nat i)
       | None => None
       end
  else None.

Definition Rsum (l : list R) : R := fold_right Rplus 0 l.

(** [a.sum()] *)
Definition array_sum (a : ndarray) : R := Rsum (map Rsum a).

(** An elementwise numpy expression. *)
Definition elementwise (f : R -> R) (a : ndarray) : ndarray := map (map f) a.

(** [band.WriteArray(a, xoff=xoff, yoff=yoff)] *)
Definition WriteArray (pix : Z -> Z -> R) (a : ndarray) (xoff yoff : Z)
  : Z -> Z -> R :=
  fun x y =>
    match array_get a (y - yoff) (x - xoff) with
    | Some v => v
    | None => pix x y
    end.

(** The array of a block that [iterblocks] yields along with its offsets. *)
Definition ReadAsArray (pix : Z -> Z -> R) (b : block_data) : ndarray :=
  map (fun y => map (fun x => pix x y)
                    (zrange (xoff b) (xoff b + win_xsize b)))
      (zrange (yoff b) (yoff b + win_ysize b)).

(** The pixels of a window, row by row. *)
Definition block_pixels (b : block_data) : list (Z * Z) :=
  flat_map (fun y => map (fun x => (x, y))
                         (zrange (xoff b) (xoff b + win_xsize b)))
           (zrange (yoff b) (yoff b + win_ysize b)).

Definition raster_pixels (xsize ysize : Z) : list (Z * Z) :=
  block_pixels (mk_block 0 0 xsize ysize).

Definition pixel_eq_dec (p q : Z * Z) : {p = q} + {p <> q}.
Proof. decide equality; apply Z.eq_dec. Defined.

(** The distances handed to [function] for one block. *)
Definition pixel_dist_from_center
  (pixel_radius band_x_size band_y_size : Z) (b : block_data) : ndarray :=
  let array_xmin := (xoff b - pixel_radius)%Z in
  let array_xmax :=
    Z.min (array_xmin + win_xsize b) (band_x_size - pixel_radius) in
  let array_ymin := (yoff b - pixel_radius)%Z in
  let array_ymax :=
    Z.min (array_ymin + win_ysize b) (band_y_size - pixel_radius) in
  hypot_mgrid array_ymin array_ymax array_xmin array_xmax.

Section CreateKernel.

(** [pygeoprocessing.iterblocks] lives outside [kernels.py]; it is taken
    as a parameter: the windows it yields for a raster of a given size. *)
Variable iterblocks : Z -> Z -> list block_data.

(** The first loop: fill the band block by block and sum what is
    written. *)
Definition fill_blocks (function : ndarray -> ndarray)
  (pixel_radius band_x_size band_y_size : Z)
  (blocks : list block_data) (pix : Z -> Z -> R) (running_sum : R)
  : (Z -> Z -> R) * R :=
  fold_left
    (fun st b =>
       let kernel :=
         function
           (pixel_dist_from_center pixel_radius band_x_size band_y_size b)
       in
       (WriteArray (fst st) kernel (xoff b) (yoff b),
        snd st + array_sum kernel))
    blocks (pix, running_sum).

(** The second loop: [kernel_block /= running_sum] on every block. *)
Definition normalize_blocks (running_sum : R)
  (blocks : list block_data) (pix : Z -> Z -> R) : Z -> Z -> R :=
  fold_left
    (fun pix b =>
       let kernel_block :=
         elementwise (fun v => v / running_sum) (ReadAsArray pix b) in
       WriteArray pix kernel_block (xoff b) (yoff b))
    blocks pix.

Definition _create_distance_based_kernel
  (function : ndarray -> ndarray) (max_distance : R) (normalize : bool)
  : dataset :=
  let pixel_radius := ceil max_distance in
  let kernel_size := (pixel_radius * 2 + 1)%Z in
  let blocks := iterblocks kernel_size kernel_size in
  let filled :=
    fill_blocks function pixel_radius kernel_size kernel_size
                blocks (fun _ _ => 0) 0 in
  let running_sum := snd filled in
  mk_dataset kernel_size kernel_size GDT_Float32
    (0 :: 1 :: 0 :: 0 :: 0 :: -1 :: nil)%Z
    (Some FLOAT32_NODATA)
    (if normalize
     then normalize_blocks running_sum blocks (fst filled)
     else fst filled).

Definition _dichotomy (max_distance : R) (distance_from_center : R) : R :=
  if Rle_dec distance_from_center max_distance then 1 else 0.

Definition dichotomous_kernel (max_distance : R) : dataset :=
  _create_distance_based_kernel
    (elementwise (_dichotomy max_distance)) max_distance false.

Definition _density (max_distance : R) (distance_from_center : R) : R :=
  if Rle_dec distance_from_center max_distance
  then 0.75 * (1 - (distance_from_center / max_distance) ^ 2)
  else 0.

Definition density_decay_kernel (max_distance : R) : dataset :=
  _create_distance_based_kernel
    (elementwise (_density max_distance)) max_distance false.

Definition _exp_decay (max_distance : R) (distance_from_center : R) : R :=
  if Rlt_dec max_distance distance_from_center
  then 0
  else exp (- distance_from_center / max_distance).

Definition exponential_decay_kernel (max_distance : R) : dataset :=
  _create_distance_based_kernel
    (elementwise (_exp_decay max_distance)) max_distance true.

Definition _linear_decay (max_distance : R) (distance_from_center : R) : R :=
  if Rlt_dec max_distance distance_from_center
  then 0
  else (max_distance - distance_from_center) / max_distance.

Definition linear_decay_kernel (max_distance : R) : dataset :=
  _create_distance_based_kernel
    (elementwise (_linear_decay max_distance)) max_distance true.

Definition _gaussian_decay (sigma max_distance : R)
  (distance_from_center : R) : R :=
  if Rlt_dec max_distance distance_from_center
  then 0
  else 1 / (2 * PI * sigma ^ 2)
       * exp (- distance_from_center ^ 2 / (2 * sigma ^ 2)).

Definition gaussian_decay_kernel (sigma n_std_dev : R) : dataset :=
  let max_distance := sigma * n_std_dev in
  _create_distance_based_kernel
    (elementwise (_gaussian_decay sigma max_distance)) max_distance true.

End CreateKernel.

(** What [iterblocks] promises: windows that lie inside the raster and cover
    it, every pixel in one window. *)
Definition block_within (xsize ysize : Z) (b : block_data) : Prop :=
  (0 <= xoff b /\ 0 <= win_xsize b /\ xoff b + win_xsize b <= xsize /\
   0 <= yoff b /\ 0 <= win_ysize b /\ yoff b + win_ysize b <= ysize)%Z.

Definition covers (blocks : list block_data) (xsize ysize : Z) : Prop :=
  Forall (block_within xsize ysize) blocks /\
  Permutation (flat_map block_pixels blocks) (raster_pixels xsize ysize).

(** The distance of pixel [(x, y)] from the centre pixel
    [(pixel_radius, pixel_radius)]. *)
Definition center_distance (pixel_radius x y : Z) : R :=
  hypot (IZR (y - pixel_radius)) (IZR (x - pixel_radius)).

(** The sum of the band over the whole raster. *)
Definition band_sum (ds : dataset) : R :=
  Rsum (map (fun p => pixels ds (fst p) (snd p))
            (raster_pixels (RasterXSize ds) (RasterYSize ds))).

(** The sum over the raster of what [f] gives at every pixel's distance
    from the centre: the total of an unnormalized kernel. *)
Definition unnormalized_total (f : R -> R) (pixel_radius : Z) : R :=
  Rsum (map (fun p => f (center_distance pixel_radius (fst p) (snd p)))
            (raster_pixels (pixel_radius * 2 + 1) (pixel_radius * 2 + 1))).

(** A square Float32 raster of odd side [2 * pixel_radius + 1], which holds
    the centre pixel [(pixel_radius, pixel_radius)]. *)
Definition kernel_shape (ds : dataset) (pixel_radius : Z) : Prop :=
  RasterXSize ds = (2 * pixel_radius + 1)%Z /\
  RasterYSize ds = (2 * pixel_radius + 1)%Z /\
  DataType ds = GDT_Float32 /\
  Z.odd (RasterXSize ds) = true /\
  Z.odd (RasterYSize ds) = true /\
  (0 <= pixel_radius < RasterXSize ds)%Z /\
  (0 <= pixel_radius < RasterYSize ds)%Z.

(** One window for the whole raster: the blocks of a raster that fits in
    a single 256 x 256 tile. *)
Definition single_block (xsize ysize : Z) : list block_data :=
  mk_block 0 0 xsize ysize :: nil.

(** [iterblocks] yields, for every raster, windows that cover it. *)
Definition tiles_every_raster (iterblocks : Z -> Z -> list block_data) : Prop :=
  forall xsize ysize : Z,
    (0 <= xsize)%Z -> (0 <= ysize)%Z ->
    covers (iterblocks xsize ysize) xsize ysize.

(** One window per row: the blocks of a striped raster. *)
Definition row_blocks (xsize ysize : Z) : list block_data :=
  map (fun y => mk_block 0 y xsize 1) (zrange 0 ysize).

(** Pixel [(x, y)] lies in the band of the raster. *)
Definition in_band (ds : dataset) (x y : Z) : Prop :=
  (0 <= x < RasterXSize ds /\ 0 <= y < RasterYSize ds)%Z.

(** [f] never grows with the distance. *)
Definition decays (f : R -> R) : Prop :=
  forall d1 d2 : R, 0 <= d1 <= d2 -> f d2 <= f d1.

End Kernels.

(** ** Routing ([pygeoprocessing.routing])

    The routing module itself is not among the sources; its operations are
    modelled from the specification, with the direction numbering, the
    packed encoding and the fixtures of [tests/test_routing.py]. *)

Module Routing.

Local Open Scope Z_scope.

(** *** Grids *)

(** A cell, as numpy indexes it: row, then column. *)
Definition cell : Type := Z * Z.

Inductive cell_dtype := Byte | Int32 | Float32 | Float64.

(** A raster band with its cell type, its nodata sentinel and its
    geotransform. *)
Record raster (A : Type) := mk_raster {
  n_rows : Z;
  n_cols : Z;
  dtype : cell_dtype;
  nodata : option A;
  geotransform : list Qc;
  cells : gmap cell A
}.

Arguments mk_raster {A}.
Arguments n_rows {A}.
Arguments n_cols {A}.
Arguments dtype {A}.
Arguments nodata {A}.
Arguments geotransform {A}.
Arguments cells {A}.

Definition in_grid {A : Type} (g : raster A) (c : cell) : bool :=
  (0 <=? fst c) && (fst c <? n_rows g) && (0 <=? snd c) && (snd c <? n_cols g).

(** The cells of a grid in row-major order. *)
Definition grid_cells (rows cols : Z) : list cell :=
  r ← seqZ 0 rows; (λ c, (r, c)) <$> seqZ 0 cols.

(** The map that holds [f c] at every cell of [l]. *)
Definition tabulate {B : Type} (f : cell -> B) (l : list cell) : gmap cell B :=
  list_to_map ((λ c, (c, f c)) <$> l).

(** A numpy array written into a new raster, as the tests do. *)
Definition enumerate {B : Type} (l : list B) : list (Z * B) :=
  zip (seqZ 0 (Z.of_nat (length l))) l.

Definition array_cells {A : Type} (a : list (list A)) : gmap cell A :=
  list_to_map
    (rw ← enumerate a; (λ cv, ((fst rw, fst cv), snd cv)) <$> enumerate (snd rw)).

Definition raster_of_array {A : Type} (t : cell_dtype) (nd : option A)
  (gt : list Qc) (a : list (list A)) : raster A :=
  mk_raster (Z.of_nat (length a))
            (Z.of_nat (length (default [] (head a))))
            t nd gt (array_cells a).

(** [band.ReadAsArray()] *)
Definition ReadAsArray {A : Type} (g : raster A) : list (list (option A)) :=
  (λ r, (λ c, cells g !! (r, c)) <$> seqZ 0 (n_cols g)) <$> seqZ 0 (n_rows g).

(** The value of a cell that lies in the grid and is not nodata. *)
Definition value {A : Type} `{EqDecision A} (g : raster A) (c : cell)
  : option A :=
  if in_grid g c
  then match cells g !! c with
       | Some v => if decide (nodata g = Some v) then None else Some v
       | None => None
       end
  else None.

Definition is_valid {A : Type} `{EqDecision A} (g : raster A) (c : cell)
  : bool :=
  bool_decide (is_Some (value g c)).

(** The cells that hold data, in row-major order. *)
Definition valid_cells {A : Type} `{EqDecision A} (g : raster A) : list cell :=
  filter (λ c, is_valid g c = true) (grid_cells (n_rows g) (n_cols g)).

(** *** The eight directions

    Fixed by the regression arrays of the tests: 0 is east and the numbers
    go counter-clockwise, so 2 is north (the row above), 4 west, 6 south. *)
Definition ROW_OFFSET (d : Z) : Z :=
  match d with
  | 1 | 2 | 3 => -1
  | 5 | 6 | 7 => 1
  | _ => 0
  end.

Definition COL_OFFSET (d : Z) : Z :=
  match d with
  | 0 | 1 | 7 => 1
  | 3 | 4 | 5 => -1
  | _ => 0
  end.

Definition neighbor (c : cell) (d : Z) : cell :=
  (fst c + ROW_OFFSET d, snd c + COL_OFFSET d).

Definition REVERSE_DIRECTION (d : Z) : Z := (d + 4) mod 8.

Definition directions : list Z := seqZ 0 8.

Definition is_diagonal (d : Z) : bool := Z.odd d.

(** *** Queue-driven propagation with pending counters

    Modelled from the spec: the topological aggregation of its section 4.4
    (and the "explicit work-queue plus pending-count array" of its design
    notes).  Every cell has a counter of the inflows it still waits for and
    an accumulator.  A cell whose counter is zero is ready; popping a ready
    cell pushes its accumulator onto each of its targets, decrements their
    counters and enqueues those that reach zero. *)

Section Propagate.

Context {A : Type}.

(** The cells that take part. *)
Variable nodes : list cell.
(** The cells a cell pushes to. *)
Variable targets : cell -> list cell.
(** [push s t a_s a_t]: the accumulator of [t] after [s], whose accumulator
    is [a_s], has pushed onto it. *)
Variable push : cell -> cell -> A -> A -> A.
(** The accumulator a cell starts from. *)
Variable init : cell -> A.

Record pstate := mk_pstate {
  queue : list cell;
  pending : gmap cell nat;
  accum : gmap cell A;
  visited : list cell
}.

Definition in_degree (c : cell) : nat :=
  length (filter (λ s, c ∈ targets s) nodes).

Definition initial_state : pstate :=
  mk_pstate (filter (λ c, in_degree c = 0%nat) nodes)
            (tabulate in_degree nodes)
            (tabulate init nodes)
            [].

(** [s], with accumulator [a], pushes onto its target [t]. *)
Definition relax (s : cell) (a : A) (st : pstate) (t : cell) : pstate :=
  match pending st !! t with
  | Some (S n) =>
      mk_pstate (if decide (n = 0%nat) then queue st ++ [t] else queue st)
                (<[t := n]> (pending st))
                (alter (push s t a) t (accum st))
                (visited st)
  | _ => st
  end.

(** Pop [s] (the queue already holds the rest). *)
Definition visit (s : cell) (st : pstate) : pstate :=
  match accum st !! s with
  | Some a =>
      foldl (relax s a)
            (mk_pstate (queue st) (pending st) (accum st) (s :: visited st))
            (targets s)
  | None => st
  end.

Fixpoint propagate (fuel : nat) (st : pstate) : pstate :=
  match fuel with
  | O => st
  | S fuel' =>
      match queue st with
      | [] => st
      | s :: rest =>
          propagate fuel'
            (visit s (mk_pstate rest (pending st) (accum st) (visited st)))
      end
  end.

(** The whole pass.  A stalled queue (it empties while cells remain
    unvisited) is an error. *)
Definition run_propagation : option (gmap cell A) :=
  let st := propagate (S (length nodes)) initial_state in
  if decide (length (visited st) = length nodes)
  then Some (accum st)
  else None.

(** What the pass computes.  [flows_to s t]: [s] pushes onto [t]. *)
Definition flows_to (s t : cell) : Prop := t ∈ targets s.

(** No cell reaches itself along pushes. *)
Definition acyclic : Prop := ∀ c, ¬ tc flows_to c c.

(** The cells that push onto [c] and are not among [seen]. *)
Definition unvisited_preds (seen : list cell) (c : cell) : list cell :=
  filter (λ s, (s ∉ seen) ∧ (c ∈ targets s)) nodes.

(** The accumulator of [c] after the cells of [seen] (latest first) have
    pushed, each with the accumulator it holds in [m]. *)
Definition gather (m : gmap cell A) (seen : list cell) (c : cell) : A :=
  foldr (λ s a,
           if decide (c ∈ targets s)
           then match m !! s with Some a_s => push s c a_s a | None => a end
           else a)
        (init c) seen.

(** The invariant of the loop. *)
Definition propagation_invariant (st : pstate) : Prop :=
  NoDup (visited st ++ queue st) ∧
  (∀ c, c ∈ visited st ++ queue st →
        c ∈ nodes ∧ pending st !! c = Some 0%nat) ∧
  (∀ c, c ∈ nodes →
        pending st !! c = Some (length (unvisited_preds (visited st) c))) ∧
  (∀ c, c ∈ nodes → pending st !! c = Some 0%nat →
        c ∈ visited st ++ queue st) ∧
  (∀ c, c ∈ nodes →
        accum st !! c = Some (gather (accum st) (visited st) c)).

End Propagate.

(** *** Flow accumulation, D8 *)

(** The cell a D8 direction points at: the neighbour in that direction. *)
Definition d8_target (flow_dir : raster Z) (c : cell) : option cell :=
  match value flow_dir c with
  | Some d => if bool_decide (0 <= d <= 7) then Some (neighbor c d) else None
  | None => None
  end.

(** The cell a D8 direction cell drains to: the neighbour its direction
    points at, when that neighbour is in the grid and holds data. *)
Definition downstream_d8 (flow_dir : raster Z) (c : cell) : option cell :=
  match d8_target flow_dir c with
  | Some t => if is_valid flow_dir t then Some t else None
  | None => None
  end.

Definition option_list {B : Type} (o : option B) : list B :=
  match o with Some b => [b] | None => [] end.

(** The weight of a cell: 1 without a weight raster. *)
Definition weight_of (weights : option (raster Qc)) (c : cell) : Qc :=
  match weights with
  | Some w => default 0%Qc (cells w !! c)
  | None => 1%Qc
  end.

(** The float64 output raster of an accumulation or distance pass: a value
    at every cell that got one, nothing (nodata) elsewhere. *)
Definition float64_output {A : Type} (base : raster A) (m : gmap cell Qc)
  : raster Qc :=
  mk_raster (n_rows base) (n_cols base) Float64 None (geotransform base) m.

Definition flow_accumulation_d8 (flow_dir : raster Z)
  (weights : option (raster Qc)) : option (raster Qc) :=
  float64_output flow_dir <$>
    run_propagation (valid_cells flow_dir)
      (λ s, option_list (downstream_d8 flow_dir s))
      (λ s t a_s a_t, (a_t + a_s)%Qc)
      (weight_of weights).

(** The direction array of [test_flow_accum_d8]. *)
Definition plateau_flow_dir_array : list (list Z) :=
  [ [2; 2; 2; 2; 2; 2; 2; 2; 2; 2; 0];
    [4; 2; 2; 2; 2; 2; 2; 2; 2; 2; 0];
    [4; 4; 2; 2; 2; 2; 2; 2; 2; 0; 0];
    [4; 4; 4; 2; 2; 2; 2; 2; 0; 0; 0];
    [4; 4; 4; 4; 2; 2; 2; 0; 0; 0; 0];
    [4; 4; 4; 4; 4; 2; 0; 0; 0; 0; 0];
    [4; 4; 4; 4; 4; 6; 0; 0; 0; 0; 0];
    [4; 4; 4; 4; 6; 6; 6; 0; 0; 0; 0];
    [4; 4; 4; 6; 6; 6; 6; 6; 0; 0; 0];
    [4; 4; 6; 6; 6; 6; 6; 6; 6; 0; 0];
    [4; 6; 6; 6; 6; 6; 6; 6; 6; 6; 0] ].

Definition default_geotransform : list Qc :=
  Q2Qc <$> [0; 1; 0; 0; 0; -1]%Q.

Definition plateau_flow_dir : raster Z :=
  raster_of_array Float32 None default_geotransform plateau_flow_dir_array.

(** Its expected accumulation. *)
Definition plateau_flow_accum_array : list (list Z) :=
  [ [1; 2; 3; 4; 5; 6; 5; 4; 3; 2; 1];
    [1; 1; 2; 3; 4; 5; 4; 3; 2; 1; 1];
    [2; 1; 1; 2; 3; 4; 3; 2; 1; 1; 2];
    [3; 2; 1; 1; 2; 3; 2; 1; 1; 2; 3];
    [4; 3; 2; 1; 1; 2; 1; 1; 2; 3; 4];
    [5; 4; 3; 2; 1; 1; 1; 2; 3; 4; 5];
    [5; 4; 3; 2; 1; 1; 1; 2; 3; 4; 5];
    [4; 3; 2; 1; 1; 2; 1; 1; 2; 3; 4];
    [3; 2; 1; 1; 2; 3; 2; 1; 1; 2; 3];
    [2; 1; 1; 2; 3; 4; 3; 2; 1; 1; 2];
    [1; 1; 2; 3; 4; 5; 4; 3; 2; 1; 1] ].

(** An array of float values, as exact fractions, for comparison. *)
Definition as_fractions (a : list (list (option Qc))) : list (list (option Q)) :=
  (λ row : list (option Qc), (λ v : option Qc, this <$> v) <$> row) <$> a.

Definition whole_numbers (a : list (list Z)) : list (list (option Q)) :=
  (λ row : list Z, (λ z : Z, Some (inject_Z z)) <$> row) <$> a.

(** *** Flooding from seeds

    Modelled from the spec: the traversals of its sections 4.1, 4.5 (D8) and
    4.6.  The seeds hold a value and are queued.  Popping a queued cell
    gives a value to each of its neighbours that holds none yet, and queues
    them; a cell that holds a value keeps it. *)

Section Flood.

Context {V : Type}.

(** The cells examined when a cell is popped. *)
Variable nbrs : cell -> list cell.
(** [spread c v n]: the value [c], which holds [v], gives to [n]. *)
Variable spread : cell -> V -> cell -> V.
(** The pop of the queue: the cell taken and the cells left. *)
Variable pop : gmap cell V -> list cell -> option (cell * list cell).

Definition claim (c : cell) (v : V) (st : list cell * gmap cell V) (n : cell)
  : list cell * gmap cell V :=
  match snd st !! n with
  | Some _ => st
  | None => (fst st ++ [n], <[n := spread c v n]> (snd st))
  end.

Fixpoint flood (fuel : nat) (q : list cell) (m : gmap cell V)
  : list cell * gmap cell V :=
  match fuel with
  | O => (q, m)
  | S fuel' =>
      match pop m q with
      | None => (q, m)
      | Some (c, rest) =>
          match m !! c with
          | Some v =>
              let st := foldl (claim c v) (rest, m) (nbrs c) in
              flood fuel' (fst st) (snd st)
          | None => flood fuel' rest m
          end
      end
  end.

End Flood.

(** What the flood keeps true of its queue and its values, over the cells
    [nodes] it may reach: queued cells hold a value, and a cell that holds
    one is still queued or has given one to each of its neighbours. *)
Definition flood_ready {V : Type} (nbrs : cell -> list cell)
  (nodes : list cell) (q : list cell) (m : gmap cell V) : Prop :=
  NoDup q ∧
  (∀ c, c ∈ q → is_Some (m !! c)) ∧
  (∀ c, is_Some (m !! c) → c ∈ nodes) ∧
  (∀ c, is_Some (m !! c) →
        c ∈ q ∨ ∀ n, n ∈ nbrs c → is_Some (m !! n)).

(** A first-in first-out queue. *)
Definition pop_first {V : Type} (m : gmap cell V) (q : list cell)
  : option (cell * list cell) :=
  match q with
  | [] => None
  | c :: rest => Some (c, rest)
  end.

(** *** Distance to channel, D8 *)

(** Modelled from the spec: the length of a diagonal hop, the square root
    of 2, as the fraction its float64 literal denotes. *)
Definition SQRT2 : Qc := Q2Qc (14142135623730951 # 10000000000000000).

(** The neighbours of [c] whose direction points at [c]. *)
Definition pointing_at (flow_dir : raster Z) (c : cell) : list cell :=
  filter (λ n, d8_target flow_dir n = Some c) (neighbor c <$> directions).

(** The cost of the hop out of [n]: its weight when there is a weight
    raster, else the length of the step in its direction. *)
Definition hop_cost_d8 (flow_dir : raster Z) (weights : option (raster Qc))
  (n : cell) : Qc :=
  match weights with
  | Some w => default 0%Qc (cells w !! n)
  | None =>
      match value flow_dir n with
      | Some d => if is_diagonal d then SQRT2 else 1%Qc
      | None => 1%Qc
      end
  end.

(** A channel cell: a cell of the grid that holds 1. *)
Definition is_channel (channel : raster Z) (c : cell) : bool :=
  in_grid channel c && bool_decide (cells channel !! c = Some 1).

Definition channel_cells (channel : raster Z) : list cell :=
  filter (λ c, is_channel channel c = true)
         (grid_cells (n_rows channel) (n_cols channel)).

Definition distance_to_channel_d8 (flow_dir : raster Z) (channel : raster Z)
  (weights : option (raster Qc)) : raster Qc :=
  let seeds := channel_cells channel in
  float64_output flow_dir
    (snd (flood (pointing_at flow_dir)
                (λ c v n, (v + hop_cost_d8 flow_dir weights n)%Qc)
                pop_first
                (length (grid_cells (n_rows flow_dir) (n_cols flow_dir)))
                seeds
                (tabulate (λ _, 0%Qc) seeds))).

(** One hop along the D8 directions. *)
Definition d8_step (flow_dir : raster Z) (a b : cell) : Prop :=
  d8_target flow_dir a = Some b.

(** The channel array of [test_distance_to_channel_d8]. *)
Definition border_channel_array : list (list Z) :=
  [ [1; 1; 1; 1; 1; 1; 1; 1; 1; 1; 1];
    [1; 0; 0; 0; 0; 0; 0; 0; 0; 0; 1];
    [1; 0; 0; 0; 0; 0; 0; 0; 0; 0; 1];
    [1; 0; 0; 0; 0; 0; 0; 0; 0; 0; 1];
    [1; 1; 0; 0; 0; 0; 0; 0; 0; 1; 1];
    [1; 1; 0; 0; 0; 0; 0; 0; 0; 1; 1];
    [1; 1; 0; 0; 0; 0; 0; 0; 0; 1; 1];
    [1; 0; 0; 0; 0; 0; 0; 0; 0; 0; 1];
    [1; 0; 0; 0; 0; 0; 0; 0; 0; 0; 1];
    [1; 0; 0; 0; 0; 0; 0; 0; 0; 0; 1];
    [1; 1; 1; 1; 1; 1; 1; 1; 1; 1; 1] ].

Definition border_channel : raster Z :=
  raster_of_array Byte None default_geotransform border_channel_array.

(** The direction raster of the distance tests: the plateau drain again,
    written as bytes. *)
Definition plateau_flow_dir_d8 : raster Z :=
  raster_of_array Byte None default_geotransform plateau_flow_dir_array.


(** A channel along row 5 only, as in the MFD distance tests. *)
Definition row5_channel_array : list (list Z) :=
  (λ r, (λ _ : Z, if decide (r = 5) then 1 else 0) <$> seqZ 0 11) <$> seqZ 0 11.

Definition row5_channel : raster Z :=
  raster_of_array Byte None default_geotransform row5_channel_array.

(** *** Multiple flow directions *)

(** Field [i] of a packed MFD value: bits [4 i] to [4 i + 3], as the
    regression arrays of the tests have them. *)
Definition mfd_field (v : Z) (i : Z) : Z := Z.land (Z.shiftr v (4 * i)) 15.




(** A whole number as a value. *)
Definition Zc (z : Z) : Qc := Q2Qc (inject_Z z).

(** The packed value of a cell, 0 where there is no data. *)
Definition mfd_value (flow_dir : raster Z) (c : cell) : Z :=
  default 0 (value flow_dir c).

(** The direction that leads from [s] to [t], when they are neighbours. *)
Definition direction_between (s t : cell) : option Z :=
  head (filter (λ d, neighbor s d = t) directions).

(** The field of [s] for the direction that leads to [t]; 0 when [t] is no
    neighbour of [s]. *)
Definition mfd_field_to (flow_dir : raster Z) (s t : cell) : Z :=
  match direction_between s t with
  | Some d => mfd_field (mfd_value flow_dir s) d
  | None => 0
  end.




(** *** Distance to channel, MFD

    Modelled from the spec: distances flow upstream from the channel cells,
    a cell being resolved once every cell it drains to is (sections 4.5 and
    5).  The accumulator of a cell is the pair of the sums, over the cells
    it drains to that have a distance, of field times (distance plus hop)
    and of field; its distance is their quotient. *)

(** [u] drains to [q]: [u] is in the grid, is no channel cell, and its
    field for the direction of [q] is not zero. *)
Definition mfd_drains_to (flow_dir channel : raster Z) (u q : cell) : Prop :=
  in_grid flow_dir u = true ∧ is_channel channel u = false ∧
  0 < mfd_field_to flow_dir u q.

Global Instance mfd_drains_to_dec flow_dir channel u q :
  Decision (mfd_drains_to flow_dir channel u q).
Proof. unfold mfd_drains_to. apply _. Defined.

(** The cells that wait for the distance of [q]. *)
Definition mfd_sources (flow_dir channel : raster Z) (q : cell) : list cell :=
  filter (λ u, mfd_drains_to flow_dir channel u q) (neighbor q <$> directions).

(** The distance of a resolved cell. *)
Definition mfd_distance (channel : raster Z) (c : cell) (a : Qc * Qc)
  : option Qc :=
  if is_channel channel c then Some 0%Qc
  else if decide (snd a = 0%Qc) then None
       else Some (fst a / snd a)%Qc.

(** The cost of the hop from [u] to [q]. *)
Definition hop_cost_mfd (weights : option (raster Qc)) (u q : cell) : Qc :=
  match weights with
  | Some w => default 0%Qc (cells w !! u)
  | None =>
      match direction_between u q with
      | Some d => if is_diagonal d then SQRT2 else 1%Qc
      | None => 1%Qc
      end
  end.

Definition mfd_push (flow_dir channel : raster Z)
  (weights : option (raster Qc)) (q u : cell) (a_q a_u : Qc * Qc)
  : Qc * Qc :=
  match mfd_distance channel q a_q with
  | Some d =>
      let f := Zc (mfd_field_to flow_dir u q) in
      (fst a_u + f * (d + hop_cost_mfd weights u q), snd a_u + f)%Qc
  | None => a_u
  end.

Definition distance_to_channel_mfd (flow_dir channel : raster Z)
  (weights : option (raster Qc)) : option (raster Qc) :=
  (λ m, float64_output flow_dir (map_imap (mfd_distance channel) m)) <$>
    run_propagation (grid_cells (n_rows flow_dir) (n_cols flow_dir))
      (mfd_sources flow_dir channel)
      (mfd_push flow_dir channel weights)
      (λ _, (0%Qc, 0%Qc)).

(** The MFD graph, cut at the channel cells, has no cycle. *)
Definition acyclic_mfd (flow_dir channel : raster Z) : Prop :=
  acyclic (mfd_sources flow_dir channel).

(** The MFD direction array of the tests ([test_flow_dir_mfd] expects it,
    the distance tests start from it). *)
Definition channel_mfd_array : list (list Z) :=
  let upper := [1761607680] ++ replicate 9 1178599424 ++ [157286400] in
  let lower := [2400] ++ replicate 9 17984 ++ [26880] in
  replicate 5 upper
  ++ [ [4603904; 983040; 983040; 983040; 983040; 524296; 15; 15; 15; 15;
        1073741894] ]
  ++ replicate 5 lower.

Definition channel_mfd : raster Z :=
  raster_of_array Int32 None default_geotransform channel_mfd_array.

(** The elevation array those directions were computed from: flat, with
    row 5 lowered to -1. *)
Definition channel_dem_array : list (list Z) :=
  (λ r, (λ _ : Z, if decide (r = 5) then -1 else 0) <$> seqZ 0 11) <$> seqZ 0 11.

(** A raster holding the same value everywhere. *)
Definition uniform_raster {A : Type} (base : raster A) (v : Qc) : raster Qc :=
  mk_raster (n_rows base) (n_cols base) Float32 None (geotransform base)
            (tabulate (λ _, v) (grid_cells (n_rows base) (n_cols base))).

(** [sum] of a list of values. *)
Definition Qcsum (l : list Qc) : Qc := foldr Qcplus 0%Qc l.

Definition d8_targets (flow_dir : raster Z) (s : cell) : list cell :=
  option_list (downstream_d8 flow_dir s).

(** The D8 direction graph has no cycle. *)
Definition acyclic_d8 (flow_dir : raster Z) : Prop :=
  acyclic (d8_targets flow_dir).

(** The neighbours of [c] whose direction points at [c]. *)
Definition upstream_d8 (flow_dir : raster Z) (c : cell) : list cell :=
  filter (λ n, downstream_d8 flow_dir n = Some c) (neighbor c <$> directions).

(** The value an output raster holds at a cell, 0 where it holds none. *)
Definition at_cell (out : raster Qc) (c : cell) : Qc :=
  default 0%Qc (cells out !! c).

(** Two cells, the first draining east into the second, and a weight of
    -1 on each. *)
Definition two_cell_flow_dir : raster Z :=
  raster_of_array Byte None default_geotransform [ [0; 0] ].

Definition negative_weights : raster Qc :=
  raster_of_array Float32 None default_geotransform
                  [ [Q2Qc (-1); Q2Qc (-1)] ].

(** A check, cell by cell, that [rank] grows along every D8 edge: when it
    does the grid has no cycle. *)
Definition rank_increases_d8 (flow_dir : raster Z) (rank : cell -> Z) : bool :=
  forallb (λ s, match downstream_d8 flow_dir s with
                | Some t => rank s <? rank t
                | None => true
                end)
          (valid_cells flow_dir).

(** The rank that an array of whole numbers gives to the cells. *)
Definition rank_of_array (a : list (list Z)) (c : cell) : Z :=
  default 0 (array_cells a !! c).

(** The largest entry of an array of whole numbers (0 for an empty one). *)
Definition array_max (a : list (list Z)) : Z := foldr Z.max 0 (concat a).

(** *** Distance to channel, either routing *)

Inductive flow_mode := D8 | MFD.

Definition distance_to_channel (mode : flow_mode) (flow_dir channel : raster Z)
  (weights : option (raster Qc)) : option (raster Qc) :=
  match mode with
  | D8 => Some (distance_to_channel_d8 flow_dir channel weights)
  | MFD => distance_to_channel_mfd flow_dir channel weights
  end.

(** One hop downstream: along the direction of the cell (D8), or along a
    direction whose field is not zero, out of a cell that is no channel
    (MFD). *)
Definition downstream_step (mode : flow_mode) (flow_dir channel : raster Z)
  : relation cell :=
  match mode with
  | D8 => d8_step flow_dir
  | MFD => mfd_drains_to flow_dir channel
  end.

(** What the traversal of the mode needs of the direction grid: nothing for
    D8, no cycle for MFD. *)
Definition routable (mode : flow_mode) (flow_dir channel : raster Z) : Prop :=
  match mode with
  | D8 => True
  | MFD => acyclic_mfd flow_dir channel
  end.

(** Every hop has a positive cost: always so for the geometric lengths,
    and for a weight raster when it holds a positive weight at each cell of
    the grid of the directions (a missing weight counts as 0). *)
Definition positive_weights (flow_dir : raster Z)
  (weights : option (raster Qc)) : Prop :=
  match weights with
  | Some w =>
      ∀ c, in_grid flow_dir c = true → (0 < default 0 (cells w !! c))%Qc
  | None => True
  end.

(** The sign of an MFD accumulator: both sums are non-negative, and the
    first is positive when the second is. *)
Definition mfd_sign (a : Qc * Qc) : Prop :=
  (0 ≤ fst a)%Qc ∧ (0 ≤ snd a)%Qc ∧ ((0 < snd a)%Qc → (0 < fst a)%Qc).

(** A check, cell by cell, that [rank] grows from every cell of the grid to
    the cells that wait for it: when it does the MFD graph has no cycle. *)
Definition rank_increases_mfd (flow_dir channel : raster Z) (rank : cell -> Z)
  : bool :=
  forallb (λ q, forallb (λ u, rank q <? rank u) (mfd_sources flow_dir channel q))
          (grid_cells (n_rows flow_dir) (n_cols flow_dir)).

(** The number of rows between a cell and row 5. *)
Definition rows_from_row5 (c : cell) : Z := Z.abs (fst c - 5).

(** Equality of fractions, numerator and denominator, is decidable. *)
Global Instance Q_eq_dec : EqDecision Q.
Proof. solve_decision. Defined.

(** *** Scaling

    What the runs on scaled weights are compared with. *)





End Routing.

(** ** Routing on binary64 values

    The outputs of the accumulation and distance passes are float64 grids.
    The passes of [Routing] are run here on binary64 values (the kernel's
    primitive floats), with the same queues and the same order of
    operations; every sum, product and quotient is rounded. *)

Module Routing64.
Import Routing.
Import PrimFloat.

Local Open Scope Z_scope.



















End Routing64.

(** * Properties *)

(** ** Kernel rasters *)

Module KernelProps.
Import Kernels.

Local Open Scope Z_scope.
Local Open Scope R_scope.

(** *** Ranges, arrays and sums *)

Lemma ceil_bounds (x : R) : IZR (ceil x) - 1 < x <= IZR (ceil x).
Proof.
  unfold ceil, Int_part.
  destruct (archimed (- x)) as [Hup Hlow].
  rewrite opp_IZR, minus_IZR. simpl. lra.
Qed.

Lemma ceil_pos (x : R) : 0 < x -> (1 <= ceil x)%Z.
Proof.
  intros Hx. destruct (ceil_bounds x) as [_ Hle].
  assert (H : 0 < IZR (ceil x)) by lra.
  apply lt_IZR in H. lia.
Qed.

Lemma zrange_length (a b : Z) : length (zrange a b) = Z.to_nat (b - a).
Proof. unfold zrange. now rewrite length_map, length_seq. Qed.

Lemma zrange_In (a b x : Z) : In x (zrange a b) <-> (a <= x < b)%Z.
Proof.
  unfold zrange. rewrite in_map_iff. split.
  - intros (k & <- & Hk). apply in_seq in Hk. lia.
  - intros Hx. exists (Z.to_nat (x - a)). split; [lia|].
    apply in_seq. lia.
Qed.

Lemma zrange_nth (a b i : Z) :
  (0 <= i)%Z ->
  nth_error (zrange a b) (Z.to_nat i) =
  if (i <? b - a)%Z then Some (a + i)%Z else None.
Proof.
  intros Hi. unfold zrange.
  destruct (Z.ltb_spec i (b - a)) as [Hlt|Hge].
  - rewrite nth_error_map, nth_error_seq.
    destruct (Nat.ltb_spec (Z.to_nat i) (Z.to_nat (b - a))); [|lia].
    simpl. f_equal. lia.
  - apply nth_error_None. rewrite length_map, length_seq. lia.
Qed.

Lemma zrange_NoDup (a b : Z) : List.NoDup (zrange a b).
Proof.
  unfold zrange. apply Finite.Injective_map_NoDup; [|apply seq_NoDup].
  intros x y Hxy. lia.
Qed.

Lemma zrange_shift (a b r : Z) :
  zrange (a - r) (b - r) = map (fun y => (y - r)%Z) (zrange a b).
Proof.
  unfold zrange. rewrite map_map.
  replace (b - r - (a - r))%Z with (b - a)%Z by lia.
  apply map_ext. intros k. lia.
Qed.

(** The array whose element [j][i] is [g (xa + i) (ya + j)]. *)
Lemma array_get_table (g : Z -> Z -> R) (ya yb xa xb j i : Z) :
  array_get
    (map (fun y => map (fun x => g x y) (zrange xa xb)) (zrange ya yb)) j i =
  if ((0 <=? j) && (j <? yb - ya) && (0 <=? i) && (i <? xb - xa))%Z
  then Some (g (xa + i) (ya + j))%Z
  else None.
Proof.
  unfold array_get.
  destruct (Z.leb_spec 0 j) as [Hj|Hj]; simpl; [|reflexivity].
  destruct (Z.leb_spec 0 i) as [Hi|Hi]; simpl.
  - rewrite nth_error_map, zrange_nth by lia.
    destruct (Z.ltb_spec j (yb - ya)); simpl; [|reflexivity].
    rewrite nth_error_map, zrange_nth by lia.
    destruct (Z.ltb_spec i (xb - xa)); reflexivity.
  - now rewrite Bool.andb_false_r.
Qed.

Lemma block_pixels_In (b : block_data) (x y : Z) :
  In (x, y) (block_pixels b) <->
  (xoff b <= x < xoff b + win_xsize b /\
   yoff b <= y < yoff b + win_ysize b)%Z.
Proof.
  unfold block_pixels. rewrite in_flat_map. split.
  - intros (y' & Hy & Hin). apply in_map_iff in Hin.
    destruct Hin as (x' & Heq & Hx). inversion Heq; subst.
    apply zrange_In in Hy, Hx. lia.
  - intros [Hx Hy]. exists y. split; [now apply zrange_In|].
    apply in_map_iff. exists x. split; [reflexivity|now apply zrange_In].
Qed.

Lemma block_pixels_NoDup (b : block_data) : List.NoDup (block_pixels b).
Proof.
  unfold block_pixels.
  generalize (zrange_NoDup (yoff b) (yoff b + win_ysize b)).
  generalize (zrange (yoff b) (yoff b + win_ysize b)) as ys.
  induction ys as [|y ys IH]; intros Hnd; simpl; [constructor|].
  inversion Hnd as [|? ? Hy Hnd']; subst.
  apply List.NoDup_app.
  - apply Finite.Injective_map_NoDup; [|apply zrange_NoDup].
    intros x1 x2 Heq. now inversion Heq.
  - now apply IH.
  - intros p Hp Hq. apply in_map_iff in Hp. destruct Hp as (x & <- & _).
    apply in_flat_map in Hq. destruct Hq as (y' & Hy' & Hq).
    apply in_map_iff in Hq. destruct Hq as (x' & Heq & _).
    inversion Heq; subst. contradiction.
Qed.

Lemma Rsum_app (l1 l2 : list R) : Rsum (l1 ++ l2) = Rsum l1 + Rsum l2.
Proof. induction l1 as [|a l1 IH]; simpl; [lra|rewrite IH; lra]. Qed.

Lemma Rsum_perm (l1 l2 : list R) : Permutation l1 l2 -> Rsum l1 = Rsum l2.
Proof. induction 1; simpl; lra. Qed.

Lemma Rsum_scale (c : R) (l : list R) :
  Rsum (map (fun v => v / c) l) = Rsum l / c.
Proof. induction l as [|a l IH]; simpl; [lra|rewrite IH; lra]. Qed.

Lemma Rsum_flat_map {A : Type} (g : A -> list R) (l : list A) :
  Rsum (flat_map g l) = Rsum (map (fun a => Rsum (g a)) l).
Proof.
  induction l as [|a l IH]; simpl; [reflexivity|].
  now rewrite Rsum_app, IH.
Qed.

(** The sum of a tabulated array is the sum over the pixels of its window. *)
Lemma array_sum_table (g : Z -> Z -> R) (b : block_data) :
  array_sum
    (map (fun y => map (fun x => g x y)
                       (zrange (xoff b) (xoff b + win_xsize b)))
         (zrange (yoff b) (yoff b + win_ysize b))) =
  Rsum (map (fun p => g (fst p) (snd p)) (block_pixels b)).
Proof.
  unfold array_sum, block_pixels.
  induction (zrange (yoff b) (yoff b + win_ysize b)) as [|y ys IH]; simpl.
  - reflexivity.
  - rewrite map_app, Rsum_app, <- IH. f_equal.
    now rewrite map_map.
Qed.

(** *** The two loops *)

Lemma WriteArray_table (pix g : Z -> Z -> R) (b : block_data) (x y : Z) :
  WriteArray pix
    (map (fun y => map (fun x => g x y)
                       (zrange (xoff b) (xoff b + win_xsize b)))
         (zrange (yoff b) (yoff b + win_ysize b)))
    (xoff b) (yoff b) x y =
  if in_dec pixel_eq_dec (x, y) (block_pixels b)
  then g x y else pix x y.
Proof.
  unfold WriteArray. rewrite array_get_table.
  destruct (in_dec pixel_eq_dec (x, y) (block_pixels b)) as [Hin|Hout].
  - apply block_pixels_In in Hin.
    destruct (Z.leb_spec 0 (y - yoff b)); [|lia].
    destruct (Z.ltb_spec (y - yoff b) (yoff b + win_ysize b - yoff b)); [|lia].
    destruct (Z.leb_spec 0 (x - xoff b)); [|lia].
    destruct (Z.ltb_spec (x - xoff b) (xoff b + win_xsize b - xoff b)); [|lia].
    simpl. f_equal; lia.
  - rewrite block_pixels_In in Hout.
    destruct (Z.leb_spec 0 (y - yoff b)); simpl; [|reflexivity].
    destruct (Z.ltb_spec (y - yoff b) (yoff b + win_ysize b - yoff b));
      simpl; [|reflexivity].
    destruct (Z.leb_spec 0 (x - xoff b)); simpl; [|reflexivity].
    destruct (Z.ltb_spec (x - xoff b) (xoff b + win_xsize b - xoff b));
      simpl; [lia|reflexivity].
Qed.

Lemma elementwise_read (g : R -> R) (pix : Z -> Z -> R) (b : block_data) :
  elementwise g (ReadAsArray pix b) =
  map (fun y => map (fun x => g (pix x y))
                    (zrange (xoff b) (xoff b + win_xsize b)))
      (zrange (yoff b) (yoff b + win_ysize b)).
Proof.
  unfold elementwise, ReadAsArray. rewrite map_map.
  apply map_ext. intros y. now rewrite map_map.
Qed.

Lemma normalize_blocks_spec (c : R) (blocks : list block_data) :
  List.NoDup (flat_map block_pixels blocks) ->
  forall (pix : Z -> Z -> R) (x y : Z),
    normalize_blocks c blocks pix x y =
    if in_dec pixel_eq_dec (x, y)
              (flat_map block_pixels blocks)
    then pix x y / c else pix x y.
Proof.
  unfold normalize_blocks.
  induction blocks as [|b blocks IH]; intros Hnd pix x y; simpl.
  - reflexivity.
  - simpl in Hnd. rewrite elementwise_read.
    rewrite IH by (eapply NoDup_app_remove_l; eauto).
    rewrite (WriteArray_table pix (fun x y => pix x y / c) b).
    destruct (in_dec pixel_eq_dec (x, y) (flat_map block_pixels blocks)) as [Hin|Hout];
      destruct (in_dec pixel_eq_dec (x, y) (block_pixels b)) as [Hb'|Hb'];
      destruct (in_dec pixel_eq_dec (x, y) (block_pixels b ++ flat_map block_pixels blocks))
        as [Hc|Hc]; try reflexivity;
      try (exfalso; rewrite in_app_iff in Hc; tauto).
    exfalso. clear - Hnd Hin Hb'.
    induction (block_pixels b) as [|p l IHl]; [contradiction|].
    simpl in Hnd. inversion Hnd as [|? ? Hp Hnd']; subst.
    destruct Hb' as [->|Hb']; [|now apply IHl].
    apply Hp. apply in_app_iff. now right.
Qed.

Section Loops.

Variable f : R -> R.
Variables pixel_radius xsize ysize : Z.

(** What the first loop writes at pixel [(x, y)]. *)
Let value (x y : Z) : R := f (center_distance pixel_radius x y).

Lemma kernel_of_block (b : block_data) :
  block_within xsize ysize b ->
  elementwise f (pixel_dist_from_center pixel_radius xsize ysize b) =
  map (fun y => map (fun x => value x y)
                    (zrange (xoff b) (xoff b + win_xsize b)))
      (zrange (yoff b) (yoff b + win_ysize b)).
Proof.
  intros (Hx0 & Hw & Hx1 & Hy0 & Hh & Hy1).
  unfold pixel_dist_from_center, hypot_mgrid, elementwise.
  rewrite !Z.min_l by lia.
  replace (yoff b - pixel_radius + win_ysize b)%Z
    with (yoff b + win_ysize b - pixel_radius)%Z by lia.
  replace (xoff b - pixel_radius + win_xsize b)%Z
    with (xoff b + win_xsize b - pixel_radius)%Z by lia.
  rewrite !zrange_shift, !map_map.
  apply map_ext. intros y. rewrite !map_map. reflexivity.
Qed.

Lemma fill_blocks_spec (blocks : list block_data) :
  Forall (block_within xsize ysize) blocks ->
  forall (pix : Z -> Z -> R) (s : R),
    let r := fill_blocks (elementwise f) pixel_radius xsize ysize
                         blocks pix s in
    (forall x y,
        fst r x y =
        if in_dec pixel_eq_dec (x, y)
                  (flat_map block_pixels blocks)
        then value x y else pix x y) /\
    snd r =
    s + Rsum (map (fun p => value (fst p) (snd p))
                  (flat_map block_pixels blocks)).
Proof.
  unfold fill_blocks.
  induction 1 as [|b blocks Hb Hbs IH]; intros pix s; simpl.
  - split; [reflexivity|lra].
  - rewrite (kernel_of_block b Hb).
    specialize (IH
      (WriteArray pix
         (map (fun y => map (fun x => value x y)
                            (zrange (xoff b) (xoff b + win_xsize b)))
              (zrange (yoff b) (yoff b + win_ysize b)))
         (xoff b) (yoff b))
      (s + array_sum
             (map (fun y => map (fun x => value x y)
                                (zrange (xoff b) (xoff b + win_xsize b)))
                  (zrange (yoff b) (yoff b + win_ysize b))))).
    destruct IH as [IHpix IHsum]. split.
    + intros x y. rewrite IHpix, WriteArray_table.
      destruct (in_dec pixel_eq_dec (x, y) (flat_map block_pixels blocks)) as [Hin|Hout];
        destruct (in_dec pixel_eq_dec (x, y) (block_pixels b)) as [Hb'|Hb'];
        destruct (in_dec pixel_eq_dec (x, y) (block_pixels b ++ flat_map block_pixels blocks))
          as [Hc|Hc]; try reflexivity;
        exfalso; rewrite in_app_iff in Hc; tauto.
    + rewrite IHsum, array_sum_table, map_app, Rsum_app. lra.
Qed.

End Loops.

(** *** The raster that [_create_distance_based_kernel] writes *)

Lemma single_block_covers (xsize ysize : Z) :
  (0 <= xsize)%Z -> (0 <= ysize)%Z ->
  covers (single_block xsize ysize) xsize ysize.
Proof.
  intros Hx Hy. split.
  - repeat constructor; simpl; lia.
  - unfold single_block, raster_pixels. simpl. now rewrite app_nil_r.
Qed.

Lemma hypot_zero (a b : Z) : hypot (IZR a) (IZR b) = 0 <-> a = 0%Z /\ b = 0%Z.
Proof.
  unfold hypot. split.
  - intros H. apply sqrt_eq_0 in H; [|nra].
    assert (Ha : IZR a = 0) by nra. assert (Hb : IZR b = 0) by nra.
    split; now apply eq_IZR_R0.
  - intros [-> ->]. replace (0 * 0 + 0 * 0) with 0 by lra. apply sqrt_0.
Qed.

Lemma raster_pixels_In (xsize ysize x y : Z) :
  In (x, y) (raster_pixels xsize ysize) <->
  (0 <= x < xsize /\ 0 <= y < ysize)%Z.
Proof. unfold raster_pixels. rewrite block_pixels_In. simpl. lia. Qed.

Section Created.

Variable iterblocks : Z -> Z -> list block_data.
Hypothesis iterblocks_covers :
  forall xsize ysize : Z,
    (0 <= xsize)%Z -> (0 <= ysize)%Z ->
    covers (iterblocks xsize ysize) xsize ysize.

Lemma create_kernel_pixels (f : R -> R) (max_distance : R) (normalize : bool) :
  (0 <= ceil max_distance)%Z ->
  let r := ceil max_distance in
  let ds :=
    _create_distance_based_kernel iterblocks (elementwise f)
                                  max_distance normalize in
  forall x y : Z,
    (0 <= x < RasterXSize ds)%Z -> (0 <= y < RasterYSize ds)%Z ->
    pixels ds x y =
    if normalize
    then f (center_distance r x y) / unnormalized_total f r
    else f (center_distance r x y).
Proof.
  intros Hr r ds x y Hx Hy. subst ds. simpl in *. fold r in Hx, Hy |- *.
  set (size := (r * 2 + 1)%Z) in *.
  destruct (iterblocks_covers size size) as [Hin Hperm]; [lia|lia|].
  destruct (fill_blocks_spec f r size size _ Hin (fun _ _ => 0) 0)
    as [Hpix Hsum].
  assert (Hmem : In (x, y) (flat_map block_pixels (iterblocks size size))).
  { eapply Permutation_in; [symmetry; exact Hperm|].
    apply raster_pixels_In. lia. }
  assert (Hfill :
    fst (fill_blocks (elementwise f) r size size
                     (iterblocks size size) (fun _ _ => 0) 0) x y
    = f (center_distance r x y)).
  { rewrite Hpix. destruct (in_dec pixel_eq_dec _ _); [reflexivity|tauto]. }
  destruct normalize; [|exact Hfill].
  rewrite normalize_blocks_spec.
  - destruct (in_dec pixel_eq_dec _ _); [|tauto].
    rewrite Hfill, Hsum. f_equal. unfold unnormalized_total. fold size.
    rewrite Rplus_0_l. apply Rsum_perm. now apply Permutation_map.
  - eapply Permutation_NoDup; [symmetry; exact Hperm|].
    apply block_pixels_NoDup.
Qed.

Lemma create_kernel_sum (f : R -> R) (max_distance : R) :
  (0 <= ceil max_distance)%Z ->
  unnormalized_total f (ceil max_distance) <> 0 ->
  band_sum
    (_create_distance_based_kernel iterblocks (elementwise f)
                                   max_distance true) = 1.
Proof.
  intros Hr Hnz. unfold band_sum.
  rewrite (map_ext_in _
    (fun p => f (center_distance (ceil max_distance) (fst p) (snd p))
              / unnormalized_total f (ceil max_distance))).
  2:{ intros [x y] Hin. simpl fst. simpl snd.
      apply raster_pixels_In in Hin.
      now rewrite (create_kernel_pixels f max_distance true Hr x y). }
  simpl RasterXSize. simpl RasterYSize.
  rewrite <- (map_map
    (fun p => f (center_distance (ceil max_distance) (fst p) (snd p)))
    (fun v => v / unnormalized_total f (ceil max_distance))).
  rewrite Rsum_scale. fold (unnormalized_total f (ceil max_distance)).
  now field.
Qed.

End Created.

Lemma create_kernel_shape (iterblocks : Z -> Z -> list block_data)
  (function : ndarray -> ndarray) (max_distance : R) (normalize : bool) :
  (0 <= ceil max_distance)%Z ->
  kernel_shape
    (_create_distance_based_kernel iterblocks function max_distance normalize)
    (ceil max_distance).
Proof.
  intros Hr. unfold kernel_shape. simpl.
  replace (ceil max_distance * 2 + 1)%Z
    with (1 + 2 * ceil max_distance)%Z by lia.
  rewrite Z.odd_add_mul_2. simpl. repeat split; lia.
Qed.

Lemma pixel_dist_from_center_get (r xsize ysize : Z) (b : block_data)
  (j i : Z) (d : R) :
  array_get (pixel_dist_from_center r xsize ysize b) j i = Some d ->
  d = center_distance r (xoff b + i) (yoff b + j).
Proof.
  unfold pixel_dist_from_center, hypot_mgrid.
  rewrite (array_get_table (fun x y => hypot (IZR y) (IZR x))).
  destruct (_ && _)%bool; [|discriminate].
  intros [= <-]. unfold center_distance. f_equal; f_equal; lia.
Qed.

Lemma center_distance_zero (r x y : Z) :
  center_distance r x y = 0 <-> x = r /\ y = r.
Proof. unfold center_distance. rewrite hypot_zero. lia. Qed.

(** C9: for a positive [max_distance], [_create_distance_based_kernel], and
    with it each of the five public kernel functions, creates a square
    Float32 raster of side [2 * ceil(max_distance) + 1], an odd number; the
    raster holds the pixel [(ceil, ceil)], and that pixel is the only one
    whose distance from the centre, as handed to [function], is 0. *)
Theorem kernel_raster_square_odd_centered
  (iterblocks : Z -> Z -> list block_data) (function : ndarray -> ndarray)
  (max_distance sigma n_std_dev : R) (normalize : bool) :
  0 < max_distance ->
  0 < sigma * n_std_dev ->
  let r := ceil max_distance in
  let ds :=
    _create_distance_based_kernel iterblocks function max_distance normalize
  in
  (IZR r - 1 < max_distance <= IZR r) /\
  kernel_shape ds r /\
  (forall (b : block_data) (j i : Z) (d : R),
      array_get
        (pixel_dist_from_center r (RasterXSize ds) (RasterYSize ds) b) j i
      = Some d ->
      d = center_distance r (xoff b + i) (yoff b + j) /\
      (d = 0 <-> (xoff b + i)%Z = r /\ (yoff b + j)%Z = r)) /\
  kernel_shape (dichotomous_kernel iterblocks max_distance) r /\
  kernel_shape (density_decay_kernel iterblocks max_distance) r /\
  kernel_shape (exponential_decay_kernel iterblocks max_distance) r /\
  kernel_shape (linear_decay_kernel iterblocks max_distance) r /\
  kernel_shape (gaussian_decay_kernel iterblocks sigma n_std_dev)
               (ceil (sigma * n_std_dev)).
Proof.
  intros Hmax Hgauss r ds.
  assert (Hr : (0 <= r)%Z) by (pose proof (ceil_pos _ Hmax); subst r; lia).
  assert (Hg : (0 <= ceil (sigma * n_std_dev))%Z)
    by (pose proof (ceil_pos _ Hgauss); lia).
  split; [apply ceil_bounds|].
  split; [now apply create_kernel_shape|].
  split.
  - intros b j i d Hd. apply pixel_dist_from_center_get in Hd.
    split; [exact Hd|]. rewrite Hd. apply center_distance_zero.
  - repeat split; now apply create_kernel_shape.
Qed.

Lemma kernel_raster_square_odd_centered_witness :
  kernel_shape
    (_create_distance_based_kernel single_block
       (elementwise (_dichotomy 2)) 2 false)
    (ceil 2) /\
  kernel_shape (gaussian_decay_kernel single_block 1 3) (ceil (1 * 3)).
Proof.
  assert (H2 : 0 < 2) by lra.
  assert (H3 : 0 < 1 * 3) by lra.
  pose proof (kernel_raster_square_odd_centered single_block
                (elementwise (_dichotomy 2)) 2 1 3 false H2 H3) as H.
  split; [apply H|]. apply H.
Defined.

Lemma create_kernel_raw_sum (iterblocks : Z -> Z -> list block_data)
  (f : R -> R) (max_distance : R) :
  (forall xsize ysize : Z,
      (0 <= xsize)%Z -> (0 <= ysize)%Z ->
      covers (iterblocks xsize ysize) xsize ysize) ->
  (0 <= ceil max_distance)%Z ->
  band_sum
    (_create_distance_based_kernel iterblocks (elementwise f)
                                   max_distance false)
  = unnormalized_total f (ceil max_distance).
Proof.
  intros Hcov Hr. unfold band_sum, unnormalized_total.
  simpl RasterXSize. simpl RasterYSize.
  f_equal. apply map_ext_in. intros [x y] Hin. simpl fst. simpl snd.
  apply raster_pixels_In in Hin.
  now rewrite (create_kernel_pixels iterblocks Hcov f max_distance false Hr).
Qed.

(** C10: with [normalize=True] the second loop leaves at every pixel the
    value written by the first loop divided by the sum of all the values the
    first loop wrote, so the normalized kernel sums to 1 when that sum is not
    0; this is what [exponential_decay_kernel], [linear_decay_kernel] and
    [gaussian_decay_kernel] produce, while [dichotomous_kernel] and
    [density_decay_kernel] pass [normalize=False] and hold the values of
    their functions unscaled. *)
Theorem normalized_kernel_divides_by_total
  (iterblocks : Z -> Z -> list block_data)
  (max_distance sigma n_std_dev : R) :
  (forall xsize ysize : Z,
      (0 <= xsize)%Z -> (0 <= ysize)%Z ->
      covers (iterblocks xsize ysize) xsize ysize) ->
  (0 <= ceil max_distance)%Z ->
  (0 <= ceil (sigma * n_std_dev))%Z ->
  let r := ceil max_distance in
  let rg := ceil (sigma * n_std_dev) in
  let in_raster (radius x y : Z) :=
    (0 <= x < radius * 2 + 1 /\ 0 <= y < radius * 2 + 1)%Z in
  (forall (f : R -> R),
      let raw :=
        _create_distance_based_kernel iterblocks (elementwise f)
                                      max_distance false in
      let ds :=
        _create_distance_based_kernel iterblocks (elementwise f)
                                      max_distance true in
      (forall x y, in_raster r x y ->
                   pixels raw x y = f (center_distance r x y) /\
                   pixels ds x y = pixels raw x y / band_sum raw) /\
      (band_sum raw <> 0 -> band_sum ds = 1)) /\
  (forall x y, in_raster r x y ->
      pixels (exponential_decay_kernel iterblocks max_distance) x y =
        _exp_decay max_distance (center_distance r x y)
        / unnormalized_total (_exp_decay max_distance) r /\
      pixels (linear_decay_kernel iterblocks max_distance) x y =
        _linear_decay max_distance (center_distance r x y)
        / unnormalized_total (_linear_decay max_distance) r /\
      pixels (dichotomous_kernel iterblocks max_distance) x y =
        _dichotomy max_distance (center_distance r x y) /\
      pixels (density_decay_kernel iterblocks max_distance) x y =
        _density max_distance (center_distance r x y)) /\
  (forall x y, in_raster rg x y ->
      pixels (gaussian_decay_kernel iterblocks sigma n_std_dev) x y =
        _gaussian_decay sigma (sigma * n_std_dev) (center_distance rg x y)
        / unnormalized_total
            (_gaussian_decay sigma (sigma * n_std_dev)) rg) /\
  (unnormalized_total (_exp_decay max_distance) r <> 0 ->
   band_sum (exponential_decay_kernel iterblocks max_distance) = 1) /\
  (unnormalized_total (_linear_decay max_distance) r <> 0 ->
   band_sum (linear_decay_kernel iterblocks max_distance) = 1) /\
  (unnormalized_total (_gaussian_decay sigma (sigma * n_std_dev)) rg <> 0 ->
   band_sum (gaussian_decay_kernel iterblocks sigma n_std_dev) = 1).
Proof.
  intros Hcov Hr Hg r rg in_raster.
  assert (Hpix := create_kernel_pixels iterblocks Hcov).
  assert (Hsum := create_kernel_sum iterblocks Hcov).
  assert (Hraw := create_kernel_raw_sum iterblocks).
  split; [|split; [|split; [|split; [|split]]]].
  - intros f raw ds. split.
    + intros x y [Hx Hy]. subst raw ds.
      rewrite (Hpix f max_distance false Hr x y Hx Hy).
      rewrite (Hpix f max_distance true Hr x y Hx Hy).
      now rewrite Hraw.
    + subst raw ds. rewrite Hraw by assumption. now apply Hsum.
  - intros x y [Hx Hy]. repeat split.
    + exact (Hpix _ max_distance true Hr x y Hx Hy).
    + exact (Hpix _ max_distance true Hr x y Hx Hy).
    + exact (Hpix _ max_distance false Hr x y Hx Hy).
    + exact (Hpix _ max_distance false Hr x y Hx Hy).
  - intros x y [Hx Hy].
    exact (Hpix _ (sigma * n_std_dev) true Hg x y Hx Hy).
  - now apply Hsum.
  - now apply Hsum.
  - now apply Hsum.
Qed.

Lemma Rsum_pos (l : list R) (v : R) :
  (forall u, In u l -> 0 <= u) -> In v l -> 0 < v -> 0 < Rsum l.
Proof.
  induction l as [|a l IH]; intros Hnn Hin Hv; [contradiction|].
  simpl. assert (Hl : 0 <= Rsum l).
  { clear - Hnn. induction l as [|b l IHl]; simpl; [lra|].
    assert (0 <= b) by (apply Hnn; simpl; tauto).
    assert (0 <= Rsum l) by (apply IHl; intros u Hu; apply Hnn; simpl in *; tauto).
    lra. }
  destruct Hin as [->|Hin].
  - lra.
  - assert (0 <= a) by (apply Hnn; simpl; tauto).
    assert (0 < Rsum l) by (apply IH; auto; intros u Hu; apply Hnn; simpl; tauto).
    lra.
Qed.

Lemma exp_decay_total_pos (max_distance : R) :
  0 < max_distance ->
  0 < unnormalized_total (_exp_decay max_distance) (ceil max_distance).
Proof.
  intros Hmax. pose proof (ceil_pos _ Hmax) as Hr.
  unfold unnormalized_total.
  set (r := ceil max_distance) in *.
  apply (Rsum_pos _ (_exp_decay max_distance (center_distance r r r))).
  - intros u Hu. apply in_map_iff in Hu. destruct Hu as (p & <- & _).
    unfold _exp_decay. destruct (Rlt_dec _ _); [lra|].
    left. apply exp_pos.
  - apply in_map_iff. exists (r, r). split; [reflexivity|].
    apply raster_pixels_In. lia.
  - unfold _exp_decay.
    replace (center_distance r r r) with 0
      by (symmetry; now apply center_distance_zero).
    destruct (Rlt_dec max_distance 0); [lra|]. apply exp_pos.
Qed.

Lemma normalized_kernel_divides_by_total_witness :
  band_sum (exponential_decay_kernel single_block 2) = 1.
Proof.
  assert (H2 : 0 < 2) by lra.
  assert (H3 : 0 < 1 * 3) by lra.
  assert (Hr : (0 <= ceil 2)%Z) by (pose proof (ceil_pos _ H2); lia).
  assert (Hg : (0 <= ceil (1 * 3))%Z) by (pose proof (ceil_pos _ H3); lia).
  pose proof (normalized_kernel_divides_by_total single_block 2 1 3
                single_block_covers Hr Hg) as H.
  apply H. apply Rgt_not_eq. now apply exp_decay_total_pos.
Defined.

(** *** More on the raster that is written *)

Lemma zrange_one (a : Z) : zrange a (a + 1) = a :: nil.
Proof.
  unfold zrange. replace (a + 1 - a)%Z with 1%Z by lia. simpl.
  f_equal. lia.
Qed.

Lemma row_blocks_covers (xsize ysize : Z) :
  (0 <= xsize)%Z -> (0 <= ysize)%Z ->
  covers (row_blocks xsize ysize) xsize ysize.
Proof.
  intros Hx Hy. split.
  - apply List.Forall_forall. intros b Hb. unfold row_blocks in Hb.
    apply in_map_iff in Hb. destruct Hb as (y & <- & Hin).
    apply zrange_In in Hin. unfold block_within. simpl. lia.
  - unfold row_blocks, raster_pixels, block_pixels. simpl.
    replace (0 + ysize)%Z with ysize by lia.
    replace (0 + xsize)%Z with xsize by lia.
    induction (zrange 0 ysize) as [|y ys IH]; simpl; [constructor|].
    rewrite zrange_one. simpl. rewrite app_nil_r.
    replace (0 + xsize)%Z with xsize by lia.
    now apply Permutation_app_head.
Qed.

Lemma row_blocks_tiles : tiles_every_raster row_blocks.
Proof. intros xsize ysize. apply row_blocks_covers. Qed.

Lemma single_block_tiles : tiles_every_raster single_block.
Proof. intros xsize ysize. apply single_block_covers. Qed.

(** X1: the raster does not depend on the windows [iterblocks] cuts it into:
    two ways of tiling give the same value at every pixel of the band, and
    the same total. *)
Theorem kernel_independent_of_blocks
  (iterblocks1 iterblocks2 : Z -> Z -> list block_data)
  (f : R -> R) (max_distance : R) (normalize : bool) :
  tiles_every_raster iterblocks1 ->
  tiles_every_raster iterblocks2 ->
  (0 <= ceil max_distance)%Z ->
  let ds1 := _create_distance_based_kernel iterblocks1 (elementwise f)
               max_distance normalize in
  let ds2 := _create_distance_based_kernel iterblocks2 (elementwise f)
               max_distance normalize in
  (forall x y, in_band ds1 x y -> pixels ds1 x y = pixels ds2 x y) /\
  band_sum ds1 = band_sum ds2.
Proof.
  intros H1 H2 Hr ds1 ds2.
  assert (Hpix : forall x y, in_band ds1 x y -> pixels ds1 x y = pixels ds2 x y).
  { intros x y [Hx Hy]. subst ds1 ds2.
    rewrite (create_kernel_pixels iterblocks1 H1 f max_distance normalize Hr
               x y Hx Hy).
    now rewrite (create_kernel_pixels iterblocks2 H2 f max_distance normalize
                   Hr x y Hx Hy). }
  split; [exact Hpix|].
  unfold band_sum. change (RasterXSize ds2) with (RasterXSize ds1).
  change (RasterYSize ds2) with (RasterYSize ds1).
  f_equal. apply map_ext_in. intros [x y] Hin. simpl fst. simpl snd.
  apply Hpix. now apply raster_pixels_In in Hin.
Qed.

Lemma kernel_independent_of_blocks_witness :
  band_sum (linear_decay_kernel single_block 2)
  = band_sum (linear_decay_kernel row_blocks 2).
Proof.
  assert (H2 : 0 < 2) by lra.
  assert (Hr : (0 <= ceil 2)%Z) by (pose proof (ceil_pos _ H2); lia).
  apply (kernel_independent_of_blocks single_block row_blocks
           (_linear_decay 2) 2 true single_block_tiles row_blocks_tiles Hr).
Defined.

Lemma center_distance_sqr (r x y : Z) :
  center_distance r x y
  = sqrt (IZR (y - r) * IZR (y - r) + IZR (x - r) * IZR (x - r)).
Proof. reflexivity. Qed.

Lemma center_distance_mirror_x (r x y : Z) :
  center_distance r (2 * r - x) y = center_distance r x y.
Proof.
  rewrite !center_distance_sqr. f_equal.
  replace (2 * r - x - r)%Z with (- (x - r))%Z by lia.
  rewrite opp_IZR. ring.
Qed.

Lemma center_distance_mirror_y (r x y : Z) :
  center_distance r x (2 * r - y) = center_distance r x y.
Proof.
  rewrite !center_distance_sqr. f_equal.
  replace (2 * r - y - r)%Z with (- (y - r))%Z by lia.
  rewrite opp_IZR. ring.
Qed.

Lemma center_distance_transpose (r x y : Z) :
  center_distance r y x = center_distance r x y.
Proof. rewrite !center_distance_sqr. f_equal. ring. Qed.

(** X2: the kernel has the symmetries of the square: its values are the same
    read from the right, read from the bottom, and with rows and columns
    exchanged. *)
Theorem kernel_symmetric (iterblocks : Z -> Z -> list block_data)
  (f : R -> R) (max_distance : R) (normalize : bool) :
  tiles_every_raster iterblocks ->
  (0 <= ceil max_distance)%Z ->
  let r := ceil max_distance in
  let ds := _create_distance_based_kernel iterblocks (elementwise f)
              max_distance normalize in
  forall x y, in_band ds x y ->
    pixels ds (2 * r - x) y = pixels ds x y /\
    pixels ds x (2 * r - y) = pixels ds x y /\
    pixels ds y x = pixels ds x y.
Proof.
  intros Ht Hr r ds x y [Hx Hy]. subst ds. simpl in Hx, Hy. fold r in Hx, Hy.
  assert (Hpix := create_kernel_pixels iterblocks Ht f max_distance normalize Hr).
  cbv zeta in Hpix. fold r in Hpix. simpl RasterXSize in Hpix.
  simpl RasterYSize in Hpix. fold r in Hpix.
  rewrite (Hpix x y) by lia.
  rewrite (Hpix (2 * r - x)%Z y), (Hpix x (2 * r - y)%Z), (Hpix y x) by lia.
  rewrite center_distance_mirror_x, center_distance_mirror_y,
    center_distance_transpose.
  now destruct normalize.
Qed.

Lemma kernel_symmetric_witness :
  pixels (exponential_decay_kernel single_block 2) 4 1
  = pixels (exponential_decay_kernel single_block 2) 0 1.
Proof.
  assert (H2 : 0 < 2) by lra.
  assert (Hr : (0 <= ceil 2)%Z) by (pose proof (ceil_pos _ H2); lia).
  assert (Hc : ceil 2 = 2%Z).
  { pose proof (ceil_bounds 2) as [Hlo Hhi].
    apply le_IZR in Hhi.
    assert (IZR (ceil 2) < 3) by lra. apply lt_IZR in H. lia. }
  pose proof (kernel_symmetric single_block (_exp_decay 2) 2 true
                single_block_tiles Hr 0%Z 1%Z) as H.
  cbv zeta in H. rewrite Hc in H.
  apply H. unfold in_band. simpl. rewrite Hc. lia.
Defined.

(** X3: the distances computed for a window are clipped to the band: the array
    has the rows and columns of the window that lie in the band, and
    nothing is written at or past the right and bottom edges, whatever the
    windows are. *)
Theorem kernel_blocks_clipped_to_band (f : R -> R)
  (pixel_radius band_x_size band_y_size : Z) (blocks : list block_data)
  (pix : Z -> Z -> R) (running_sum : R) (x y : Z) :
  (band_x_size <= x \/ band_y_size <= y)%Z ->
  (forall b : block_data,
      let a := pixel_dist_from_center pixel_radius band_x_size band_y_size b in
      length a = Z.to_nat (Z.min (win_ysize b) (band_y_size - yoff b)) /\
      forall row, In row a ->
        length row = Z.to_nat (Z.min (win_xsize b) (band_x_size - xoff b))) /\
  fst (fill_blocks (elementwise f) pixel_radius band_x_size band_y_size
                   blocks pix running_sum) x y
  = pix x y.
Proof.
  intros Hout. split.
  - intros b a. subst a. unfold pixel_dist_from_center, hypot_mgrid. split.
    + rewrite length_map, zrange_length. f_equal. lia.
    + intros row Hrow. apply in_map_iff in Hrow. destruct Hrow as (y' & <- & _).
      rewrite length_map, zrange_length. f_equal. lia.
  - unfold fill_blocks. revert pix running_sum.
    induction blocks as [|b blocks IH]; intros pix s; simpl; [reflexivity|].
    rewrite IH. unfold pixel_dist_from_center, hypot_mgrid, elementwise.
    rewrite map_map.
    rewrite (map_ext _ (fun y0 => map (fun x0 => f (hypot (IZR y0) (IZR x0)))
               (zrange (xoff b - pixel_radius)
                  (Z.min (xoff b - pixel_radius + win_xsize b)
                         (band_x_size - pixel_radius)))))
      by (intros y0; apply map_map).
    unfold WriteArray.
    rewrite (array_get_table (fun x0 y0 => f (hypot (IZR y0) (IZR x0)))).
    destruct (Z.leb_spec 0 (y - yoff b)); simpl; [|reflexivity].
    destruct (Z.ltb_spec (y - yoff b)
                (Z.min (yoff b - pixel_radius + win_ysize b)
                       (band_y_size - pixel_radius)
                 - (yoff b - pixel_radius))); simpl; [|reflexivity].
    destruct (Z.leb_spec 0 (x - xoff b)); simpl; [|reflexivity].
    destruct (Z.ltb_spec (x - xoff b)
                (Z.min (xoff b - pixel_radius + win_xsize b)
                       (band_x_size - pixel_radius)
                 - (xoff b - pixel_radius))); simpl; [|reflexivity].
    lia.
Qed.

Lemma kernel_blocks_clipped_to_band_witness :
  fst (fill_blocks (elementwise (_dichotomy 2)) 2 5 5
                   (mk_block 0 0 256 256 :: nil) (fun _ _ => 0) 0) 5%Z 0%Z
  = 0.
Proof.
  apply (kernel_blocks_clipped_to_band (_dichotomy 2) 2 5 5
           (mk_block 0 0 256 256 :: nil) (fun _ _ => 0) 0 5 0).
  left. lia.
Defined.

(** *** The values of the five kernels *)

Lemma center_distance_nonneg (r x y : Z) : 0 <= center_distance r x y.
Proof. unfold center_distance, hypot. apply sqrt_pos. Qed.

Lemma ceil_of_2 : ceil 2 = 2%Z.
Proof.
  pose proof (ceil_bounds 2) as [Hlo Hhi]. apply le_IZR in Hhi.
  assert (H : IZR (ceil 2) < 3) by lra. apply lt_IZR in H. lia.
Qed.

(** The corner pixel lies farther from the centre than [max_distance]. *)
Lemma corner_beyond_max_distance (max_distance : R) :
  0 < max_distance ->
  max_distance < center_distance (ceil max_distance) 0 0.
Proof.
  intros Hmax. pose proof (ceil_pos _ Hmax) as Hr.
  destruct (ceil_bounds max_distance) as [_ Hle].
  set (r := ceil max_distance) in *.
  assert (Hr1 : 1 <= IZR r) by now apply IZR_le.
  rewrite center_distance_sqr.
  replace (0 - r)%Z with (- r)%Z by lia. rewrite opp_IZR.
  apply Rle_lt_trans with (IZR r); [exact Hle|].
  rewrite <- (sqrt_square (IZR r)) at 1 by lra.
  apply sqrt_lt_1_alt. nra.
Qed.

Lemma Rsum_nonneg (l : list R) : (forall u, In u l -> 0 <= u) -> 0 <= Rsum l.
Proof.
  induction l as [|a l IH]; intros Hnn; simpl; [lra|].
  assert (0 <= a) by (apply Hnn; simpl; tauto).
  assert (0 <= Rsum l) by (apply IH; intros u Hu; apply Hnn; simpl; tauto).
  lra.
Qed.

Lemma Rsum_elem_le (l : list R) (v : R) :
  (forall u, In u l -> 0 <= u) -> In v l -> v <= Rsum l.
Proof.
  induction l as [|a l IH]; intros Hnn Hin; [contradiction|]. simpl.
  assert (Ha : 0 <= a) by (apply Hnn; simpl; tauto).
  assert (Hl : 0 <= Rsum l)
    by (apply Rsum_nonneg; intros u Hu; apply Hnn; simpl; tauto).
  destruct Hin as [->|Hin]; [lra|].
  assert (v <= Rsum l) by (apply IH; auto; intros u Hu; apply Hnn; simpl; tauto).
  lra.
Qed.

(** A function that is nowhere negative and positive at distance 0 has a
    positive total. *)
Lemma unnormalized_total_pos (f : R -> R) (r : Z) :
  (0 <= r)%Z -> (forall d, 0 <= d -> 0 <= f d) -> 0 < f 0 ->
  0 < unnormalized_total f r.
Proof.
  intros Hr Hnn H0. unfold unnormalized_total.
  apply (Rsum_pos _ (f (center_distance r r r))).
  - intros u Hu. apply in_map_iff in Hu. destruct Hu as (p & <- & _).
    apply Hnn, center_distance_nonneg.
  - apply in_map_iff. exists (r, r). split; [reflexivity|].
    apply raster_pixels_In. lia.
  - replace (center_distance r r r) with 0
      by (symmetry; now apply center_distance_zero).
    exact H0.
Qed.

Lemma unnormalized_total_elem (f : R -> R) (r x y : Z) :
  (forall d, 0 <= d -> 0 <= f d) ->
  (0 <= x < r * 2 + 1)%Z -> (0 <= y < r * 2 + 1)%Z ->
  f (center_distance r x y) <= unnormalized_total f r.
Proof.
  intros Hnn Hx Hy. unfold unnormalized_total. apply Rsum_elem_le.
  - intros u Hu. apply in_map_iff in Hu. destruct Hu as (p & <- & _).
    apply Hnn, center_distance_nonneg.
  - apply in_map_iff. exists (x, y). split; [reflexivity|].
    apply raster_pixels_In. lia.
Qed.

Lemma exp_decay_nonneg (max_distance d : R) : 0 <= _exp_decay max_distance d.
Proof.
  unfold _exp_decay. destruct (Rlt_dec _ _); [lra|]. left. apply exp_pos.
Qed.

Lemma exp_decay_zero (max_distance : R) :
  0 < max_distance -> _exp_decay max_distance 0 = 1.
Proof.
  intros Hmax. unfold _exp_decay. destruct (Rlt_dec max_distance 0); [lra|].
  replace (- 0 / max_distance) with 0 by (field; lra). apply exp_0.
Qed.

Lemma linear_decay_nonneg (max_distance d : R) :
  0 < max_distance -> 0 <= _linear_decay max_distance d.
Proof.
  intros Hmax. unfold _linear_decay. destruct (Rlt_dec _ _); [lra|].
  apply Rmult_le_pos; [lra|]. left. now apply Rinv_0_lt_compat.
Qed.

Lemma linear_decay_zero (max_distance : R) :
  0 < max_distance -> _linear_decay max_distance 0 = 1.
Proof.
  intros Hmax. unfold _linear_decay. destruct (Rlt_dec max_distance 0); [lra|].
  field. lra.
Qed.

Lemma gaussian_amplitude_pos (sigma : R) :
  0 < sigma -> 0 < 1 / (2 * PI * sigma ^ 2).
Proof.
  intros Hs. pose proof PI_RGT_0 as Hpi.
  apply Rdiv_lt_0_compat; [lra|]. apply Rmult_lt_0_compat; [lra|].
  apply pow_lt. exact Hs.
Qed.

Lemma gaussian_decay_nonneg (sigma max_distance d : R) :
  0 < sigma -> 0 <= _gaussian_decay sigma max_distance d.
Proof.
  intros Hs. unfold _gaussian_decay. destruct (Rlt_dec _ _); [lra|].
  apply Rmult_le_pos; [left; now apply gaussian_amplitude_pos|].
  left. apply exp_pos.
Qed.

Lemma gaussian_decay_zero_pos (sigma max_distance : R) :
  0 < sigma -> 0 < max_distance -> 0 < _gaussian_decay sigma max_distance 0.
Proof.
  intros Hs Hmax. unfold _gaussian_decay.
  destruct (Rlt_dec max_distance 0); [lra|].
  apply Rmult_lt_0_compat; [now apply gaussian_amplitude_pos|apply exp_pos].
Qed.

Lemma far_pixel_zero (iterblocks : Z -> Z -> list block_data)
  (max_distance : R) (x y : Z) :
  tiles_every_raster iterblocks ->
  (0 <= ceil max_distance)%Z ->
  in_band (dichotomous_kernel iterblocks max_distance) x y ->
  max_distance < center_distance (ceil max_distance) x y ->
  pixels (dichotomous_kernel iterblocks max_distance) x y = 0 /\
  pixels (density_decay_kernel iterblocks max_distance) x y = 0 /\
  pixels (exponential_decay_kernel iterblocks max_distance) x y = 0 /\
  pixels (linear_decay_kernel iterblocks max_distance) x y = 0.
Proof.
  intros Ht Hr [Hx Hy] Hd.
  assert (Hpix := create_kernel_pixels iterblocks Ht).
  unfold dichotomous_kernel, density_decay_kernel,
    exponential_decay_kernel, linear_decay_kernel.
  rewrite (Hpix (_dichotomy max_distance) max_distance false Hr x y Hx Hy).
  rewrite (Hpix (_density max_distance) max_distance false Hr x y Hx Hy).
  rewrite (Hpix (_exp_decay max_distance) max_distance true Hr x y Hx Hy).
  rewrite (Hpix (_linear_decay max_distance) max_distance true Hr x y Hx Hy).
  unfold _dichotomy, _density, _exp_decay, _linear_decay.
  destruct (Rle_dec (center_distance (ceil max_distance) x y) max_distance);
    [lra|].
  destruct (Rlt_dec max_distance (center_distance (ceil max_distance) x y));
    [|lra].
  repeat split; try reflexivity; unfold Rdiv; apply Rmult_0_l.
Qed.

Lemma far_pixel_zero_gaussian (iterblocks : Z -> Z -> list block_data)
  (sigma n_std_dev : R) (x y : Z) :
  tiles_every_raster iterblocks ->
  (0 <= ceil (sigma * n_std_dev))%Z ->
  in_band (gaussian_decay_kernel iterblocks sigma n_std_dev) x y ->
  sigma * n_std_dev < center_distance (ceil (sigma * n_std_dev)) x y ->
  pixels (gaussian_decay_kernel iterblocks sigma n_std_dev) x y = 0.
Proof.
  intros Ht Hr [Hx Hy] Hd. unfold gaussian_decay_kernel.
  rewrite (create_kernel_pixels iterblocks Ht _ (sigma * n_std_dev) true Hr
             x y Hx Hy).
  unfold _gaussian_decay at 1.
  destruct (Rlt_dec (sigma * n_std_dev)
              (center_distance (ceil (sigma * n_std_dev)) x y)); [|lra].
  unfold Rdiv. apply Rmult_0_l.
Qed.

(** X4: every kernel holds 0 at the pixels farther from the centre than
    [max_distance]; the corner pixel is one of them. *)
Theorem kernel_zero_beyond_max_distance
  (iterblocks : Z -> Z -> list block_data) (max_distance sigma n_std_dev : R) :
  tiles_every_raster iterblocks ->
  0 < max_distance -> 0 < sigma -> 0 < n_std_dev ->
  let r := ceil max_distance in
  let rg := ceil (sigma * n_std_dev) in
  (forall x y,
      in_band (dichotomous_kernel iterblocks max_distance) x y ->
      max_distance < center_distance r x y ->
      pixels (dichotomous_kernel iterblocks max_distance) x y = 0 /\
      pixels (density_decay_kernel iterblocks max_distance) x y = 0 /\
      pixels (exponential_decay_kernel iterblocks max_distance) x y = 0 /\
      pixels (linear_decay_kernel iterblocks max_distance) x y = 0) /\
  (forall x y,
      in_band (gaussian_decay_kernel iterblocks sigma n_std_dev) x y ->
      sigma * n_std_dev < center_distance rg x y ->
      pixels (gaussian_decay_kernel iterblocks sigma n_std_dev) x y = 0) /\
  pixels (dichotomous_kernel iterblocks max_distance) 0 0 = 0 /\
  pixels (density_decay_kernel iterblocks max_distance) 0 0 = 0 /\
  pixels (exponential_decay_kernel iterblocks max_distance) 0 0 = 0 /\
  pixels (linear_decay_kernel iterblocks max_distance) 0 0 = 0 /\
  pixels (gaussian_decay_kernel iterblocks sigma n_std_dev) 0 0 = 0.
Proof.
  intros Ht Hmax Hs Hn r rg.
  assert (Hg : 0 < sigma * n_std_dev) by now apply Rmult_lt_0_compat.
  assert (Hr : (0 <= r)%Z) by (pose proof (ceil_pos _ Hmax); subst r; lia).
  assert (Hrg : (0 <= rg)%Z) by (pose proof (ceil_pos _ Hg); subst rg; lia).
  split; [intros x y; now apply far_pixel_zero|].
  split; [intros x y; now apply far_pixel_zero_gaussian|].
  assert (Hc : in_band (dichotomous_kernel iterblocks max_distance) 0 0)
    by (unfold in_band; simpl; fold r; lia).
  assert (Hcg : in_band (gaussian_decay_kernel iterblocks sigma n_std_dev) 0 0)
    by (unfold in_band; simpl; fold rg; lia).
  destruct (far_pixel_zero iterblocks max_distance 0 0 Ht Hr Hc
              (corner_beyond_max_distance _ Hmax))
    as (H1 & H2 & H3 & H4).
  repeat (split; [assumption|]).
  apply far_pixel_zero_gaussian; auto. now apply corner_beyond_max_distance.
Qed.

Lemma kernel_zero_beyond_max_distance_witness :
  pixels (linear_decay_kernel single_block 2) 0 0 = 0 /\
  pixels (gaussian_decay_kernel single_block 1 3) 0 0 = 0.
Proof.
  assert (H1 : 0 < 1) by lra.
  assert (H2 : 0 < 2) by lra.
  assert (H3 : 0 < 3) by lra.
  pose proof (kernel_zero_beyond_max_distance single_block 2 1 3
                single_block_tiles H2 H1 H3) as H.
  split; apply H.
Defined.

Lemma linear_decay_total_pos (max_distance : R) :
  0 < max_distance ->
  0 < unnormalized_total (_linear_decay max_distance) (ceil max_distance).
Proof.
  intros Hmax. pose proof (ceil_pos _ Hmax) as Hr.
  apply unnormalized_total_pos; [lia| |].
  - intros d _. now apply linear_decay_nonneg.
  - rewrite linear_decay_zero by exact Hmax. lra.
Qed.

Lemma gaussian_decay_total_pos (sigma n_std_dev : R) :
  0 < sigma -> 0 < n_std_dev ->
  0 < unnormalized_total (_gaussian_decay sigma (sigma * n_std_dev))
                         (ceil (sigma * n_std_dev)).
Proof.
  intros Hs Hn.
  assert (Hg : 0 < sigma * n_std_dev) by now apply Rmult_lt_0_compat.
  pose proof (ceil_pos _ Hg) as Hr.
  apply unnormalized_total_pos; [lia| |].
  - intros d _. now apply gaussian_decay_nonneg.
  - now apply gaussian_decay_zero_pos.
Qed.

(** X5: for a positive [max_distance] (and a positive [sigma] and number of
    standard deviations) the first loop sums to a positive total, so the
    three normalized kernels sum to 1, and each of their pixels lies
    between 0 and 1. *)
Theorem normalized_kernels_sum_to_one
  (iterblocks : Z -> Z -> list block_data) (max_distance sigma n_std_dev : R) :
  tiles_every_raster iterblocks ->
  0 < max_distance -> 0 < sigma -> 0 < n_std_dev ->
  let e := exponential_decay_kernel iterblocks max_distance in
  let l := linear_decay_kernel iterblocks max_distance in
  let g := gaussian_decay_kernel iterblocks sigma n_std_dev in
  (0 < unnormalized_total (_exp_decay max_distance) (ceil max_distance) /\
   0 < unnormalized_total (_linear_decay max_distance) (ceil max_distance) /\
   0 < unnormalized_total (_gaussian_decay sigma (sigma * n_std_dev))
                          (ceil (sigma * n_std_dev))) /\
  (band_sum e = 1 /\ band_sum l = 1 /\ band_sum g = 1) /\
  (forall x y, in_band e x y ->
      0 <= pixels e x y <= 1 /\ 0 <= pixels l x y <= 1) /\
  (forall x y, in_band g x y -> 0 <= pixels g x y <= 1).
Proof.
  intros Ht Hmax Hs Hn. cbv zeta.
  assert (Hg : 0 < sigma * n_std_dev) by now apply Rmult_lt_0_compat.
  set (r := ceil max_distance). set (rg := ceil (sigma * n_std_dev)).
  assert (Hr : (0 <= r)%Z) by (pose proof (ceil_pos _ Hmax); subst r; lia).
  assert (Hrg : (0 <= rg)%Z) by (pose proof (ceil_pos _ Hg); subst rg; lia).
  assert (He : 0 < unnormalized_total (_exp_decay max_distance) r)
    by now apply exp_decay_total_pos.
  assert (Hl : 0 < unnormalized_total (_linear_decay max_distance) r)
    by now apply linear_decay_total_pos.
  assert (Hgt : 0 < unnormalized_total
                      (_gaussian_decay sigma (sigma * n_std_dev)) rg)
    by now apply gaussian_decay_total_pos.
  assert (Hpix := create_kernel_pixels iterblocks Ht).
  assert (Hsum := create_kernel_sum iterblocks Ht).
  assert (Hunit : forall (f : R -> R) (rad x y : Z),
    (forall d, 0 <= d -> 0 <= f d) -> 0 < unnormalized_total f rad ->
    (0 <= x < rad * 2 + 1)%Z -> (0 <= y < rad * 2 + 1)%Z ->
    0 <= f (center_distance rad x y) / unnormalized_total f rad <= 1).
  { intros f rad x y Hnn Hpos Hx Hy.
    pose proof (unnormalized_total_elem f rad x y Hnn Hx Hy) as Hle.
    assert (H0 : 0 <= f (center_distance rad x y))
      by apply Hnn, center_distance_nonneg.
    split.
    - apply Rmult_le_pos; [exact H0|]. left. now apply Rinv_0_lt_compat.
    - apply (Rmult_le_reg_r (unnormalized_total f rad)); [exact Hpos|].
      unfold Rdiv. rewrite Rmult_assoc, Rinv_l by lra. lra. }
  split; [repeat split; assumption|]. split; [|split].
  - repeat split.
    + apply Hsum; [exact Hr|]. fold r. lra.
    + apply Hsum; [exact Hr|]. fold r. lra.
    + apply Hsum; [exact Hrg|]. fold rg. lra.
  - intros x y [Hx Hy].
    unfold exponential_decay_kernel, linear_decay_kernel.
    rewrite (Hpix (_exp_decay max_distance) max_distance true Hr x y Hx Hy).
    rewrite (Hpix (_linear_decay max_distance) max_distance true Hr x y Hx Hy).
    fold r. simpl in Hx, Hy. fold r in Hx, Hy. split.
    + apply Hunit; auto. intros d _. apply exp_decay_nonneg.
    + apply Hunit; auto. intros d _. now apply linear_decay_nonneg.
  - intros x y [Hx Hy]. unfold gaussian_decay_kernel.
    rewrite (Hpix _ (sigma * n_std_dev) true Hrg x y Hx Hy). fold rg.
    simpl in Hx, Hy. fold rg in Hx, Hy.
    apply Hunit; auto. intros d _. now apply gaussian_decay_nonneg.
Qed.

Lemma normalized_kernels_sum_to_one_witness :
  band_sum (linear_decay_kernel row_blocks 2) = 1 /\
  band_sum (gaussian_decay_kernel row_blocks 1 3) = 1.
Proof.
  assert (H1 : 0 < 1) by lra.
  assert (H2 : 0 < 2) by lra.
  assert (H3 : 0 < 3) by lra.
  pose proof (normalized_kernels_sum_to_one row_blocks 2 1 3
                row_blocks_tiles H2 H1 H3) as H.
  split; apply H.
Defined.

(** *** Decay *)

Lemma exp_le (a b : R) : a <= b -> exp a <= exp b.
Proof.
  intros [Hlt|Heq]; [left; now apply exp_increasing|rewrite Heq; lra].
Qed.

Lemma dichotomy_decays (max_distance : R) : decays (_dichotomy max_distance).
Proof.
  intros d1 d2 [H0 Hle]. unfold _dichotomy.
  destruct (Rle_dec d2 max_distance), (Rle_dec d1 max_distance); lra.
Qed.

Lemma density_decays (max_distance : R) :
  0 < max_distance -> decays (_density max_distance).
Proof.
  intros Hmax d1 d2 [H0 Hle]. unfold _density.
  assert (Hinv : 0 < / max_distance) by now apply Rinv_0_lt_compat.
  destruct (Rle_dec d2 max_distance) as [H2|H2],
           (Rle_dec d1 max_distance) as [H1|H1]; try lra.
  - assert (0 <= d1 / max_distance <= d2 / max_distance).
    { unfold Rdiv. split; [apply Rmult_le_pos; lra|].
      apply Rmult_le_compat_r; lra. }
    nra.
  - assert (0 <= d1 / max_distance <= 1).
    { unfold Rdiv. split; [apply Rmult_le_pos; lra|].
      apply (Rmult_le_reg_r max_distance); [lra|].
      rewrite Rmult_assoc, Rinv_l by lra. lra. }
    nra.
Qed.

Lemma exp_decay_decays (max_distance : R) :
  0 < max_distance -> decays (_exp_decay max_distance).
Proof.
  intros Hmax d1 d2 [H0 Hle]. unfold _exp_decay.
  assert (Hinv : 0 < / max_distance) by now apply Rinv_0_lt_compat.
  destruct (Rlt_dec max_distance d2) as [H2|H2],
           (Rlt_dec max_distance d1) as [H1|H1]; try lra.
  - left. apply exp_pos.
  - apply exp_le. unfold Rdiv. apply Rmult_le_compat_r; lra.
Qed.

Lemma linear_decay_decays (max_distance : R) :
  0 < max_distance -> decays (_linear_decay max_distance).
Proof.
  intros Hmax d1 d2 [H0 Hle]. unfold _linear_decay.
  assert (Hinv : 0 < / max_distance) by now apply Rinv_0_lt_compat.
  destruct (Rlt_dec max_distance d2) as [H2|H2],
           (Rlt_dec max_distance d1) as [H1|H1]; try lra.
  - unfold Rdiv. apply Rmult_le_pos; lra.
  - unfold Rdiv. apply Rmult_le_compat_r; lra.
Qed.

Lemma gaussian_decay_decays (sigma max_distance : R) :
  0 < sigma -> decays (_gaussian_decay sigma max_distance).
Proof.
  intros Hs d1 d2 [H0 Hle]. unfold _gaussian_decay.
  pose proof (gaussian_amplitude_pos sigma Hs) as Ha.
  destruct (Rlt_dec max_distance d2) as [H2|H2],
           (Rlt_dec max_distance d1) as [H1|H1]; try lra.
  - apply Rmult_le_pos; [lra|]. left. apply exp_pos.
  - apply Rmult_le_compat_l; [lra|]. apply exp_le.
    assert (Hden : 0 < / (2 * sigma ^ 2)).
    { apply Rinv_0_lt_compat. apply Rmult_lt_0_compat; [lra|].
      now apply pow_lt. }
    unfold Rdiv. apply Rmult_le_compat_r; [lra|]. nra.
Qed.

(** X6: a pixel of a kernel built from a decaying function that is nearer the
    centre than another holds at least as much, normalized (with a positive
    total) or not; so does each of the five kernels, and no pixel holds
    more than the centre pixel. *)
Theorem kernel_decays_with_distance
  (iterblocks : Z -> Z -> list block_data) (max_distance sigma n_std_dev : R) :
  tiles_every_raster iterblocks ->
  0 < max_distance -> 0 < sigma -> 0 < n_std_dev ->
  let r := ceil max_distance in
  let rg := ceil (sigma * n_std_dev) in
  (forall (f : R -> R) (normalize : bool) x1 y1 x2 y2,
      let ds := _create_distance_based_kernel iterblocks (elementwise f)
                  max_distance normalize in
      decays f -> (normalize = true -> 0 < unnormalized_total f r) ->
      in_band ds x1 y1 -> in_band ds x2 y2 ->
      center_distance r x1 y1 <= center_distance r x2 y2 ->
      pixels ds x2 y2 <= pixels ds x1 y1) /\
  (forall x1 y1 x2 y2,
      in_band (dichotomous_kernel iterblocks max_distance) x1 y1 ->
      in_band (dichotomous_kernel iterblocks max_distance) x2 y2 ->
      center_distance r x1 y1 <= center_distance r x2 y2 ->
      pixels (dichotomous_kernel iterblocks max_distance) x2 y2
      <= pixels (dichotomous_kernel iterblocks max_distance) x1 y1 /\
      pixels (density_decay_kernel iterblocks max_distance) x2 y2
      <= pixels (density_decay_kernel iterblocks max_distance) x1 y1 /\
      pixels (exponential_decay_kernel iterblocks max_distance) x2 y2
      <= pixels (exponential_decay_kernel iterblocks max_distance) x1 y1 /\
      pixels (linear_decay_kernel iterblocks max_distance) x2 y2
      <= pixels (linear_decay_kernel iterblocks max_distance) x1 y1) /\
  (forall x1 y1 x2 y2,
      in_band (gaussian_decay_kernel iterblocks sigma n_std_dev) x1 y1 ->
      in_band (gaussian_decay_kernel iterblocks sigma n_std_dev) x2 y2 ->
      center_distance rg x1 y1 <= center_distance rg x2 y2 ->
      pixels (gaussian_decay_kernel iterblocks sigma n_std_dev) x2 y2
      <= pixels (gaussian_decay_kernel iterblocks sigma n_std_dev) x1 y1) /\
  (forall x y,
      in_band (exponential_decay_kernel iterblocks max_distance) x y ->
      pixels (exponential_decay_kernel iterblocks max_distance) x y
      <= pixels (exponential_decay_kernel iterblocks max_distance) r r).
Proof.
  intros Ht Hmax Hs Hn r rg.
  assert (Hg : 0 < sigma * n_std_dev) by now apply Rmult_lt_0_compat.
  assert (Hr : (0 <= r)%Z) by (pose proof (ceil_pos _ Hmax); subst r; lia).
  assert (Hrg : (0 <= rg)%Z) by (pose proof (ceil_pos _ Hg); subst rg; lia).
  assert (Hpix := create_kernel_pixels iterblocks Ht).
  assert (He : 0 < unnormalized_total (_exp_decay max_distance) r)
    by now apply exp_decay_total_pos.
  assert (Hl : 0 < unnormalized_total (_linear_decay max_distance) r)
    by now apply linear_decay_total_pos.
  assert (Hgt : 0 < unnormalized_total
                      (_gaussian_decay sigma (sigma * n_std_dev)) rg)
    by now apply gaussian_decay_total_pos.
  assert (Hgen : forall (f : R -> R) (m : R) (normalize : bool) x1 y1 x2 y2,
    (0 <= ceil m)%Z ->
    let ds := _create_distance_based_kernel iterblocks (elementwise f)
                m normalize in
    decays f -> (normalize = true -> 0 < unnormalized_total f (ceil m)) ->
    in_band ds x1 y1 -> in_band ds x2 y2 ->
    center_distance (ceil m) x1 y1 <= center_distance (ceil m) x2 y2 ->
    pixels ds x2 y2 <= pixels ds x1 y1).
  { intros f m normalize x1 y1 x2 y2 Hm ds Hdec Htot [Hx1 Hy1] [Hx2 Hy2] Hd.
    subst ds.
    rewrite (Hpix f m normalize Hm x1 y1 Hx1 Hy1).
    rewrite (Hpix f m normalize Hm x2 y2 Hx2 Hy2).
    assert (Hf : f (center_distance (ceil m) x2 y2)
                 <= f (center_distance (ceil m) x1 y1)).
    { apply Hdec. split; [apply center_distance_nonneg|exact Hd]. }
    destruct normalize; [|exact Hf].
    specialize (Htot eq_refl). unfold Rdiv.
    apply Rmult_le_compat_r; [|exact Hf].
    left. now apply Rinv_0_lt_compat. }
  split; [|split; [|split]].
  - intros f normalize x1 y1 x2 y2 ds Hdec Htot. now apply Hgen.
  - intros x1 y1 x2 y2 H1 H2 Hd. repeat split.
    + apply Hgen; auto using dichotomy_decays. discriminate.
    + apply Hgen; auto using density_decays. discriminate.
    + apply Hgen; auto using exp_decay_decays.
    + apply Hgen; auto using linear_decay_decays.
  - intros x1 y1 x2 y2 H1 H2 Hd. unfold gaussian_decay_kernel.
    apply Hgen; auto using gaussian_decay_decays.
  - intros x y Hxy.
    apply Hgen; auto using exp_decay_decays.
    + unfold in_band. simpl. fold r. lia.
    + fold r. replace (center_distance r r r) with 0
        by (symmetry; now apply center_distance_zero).
      apply center_distance_nonneg.
Qed.

Lemma kernel_decays_with_distance_witness :
  pixels (linear_decay_kernel single_block 2) 0 2
  <= pixels (linear_decay_kernel single_block 2) 1 2.
Proof.
  assert (H1 : 0 < 1) by lra.
  assert (H2 : 0 < 2) by lra.
  assert (H3 : 0 < 3) by lra.
  pose proof (kernel_decays_with_distance single_block 2 1 3
                single_block_tiles H2 H1 H3) as (_ & H & _).
  rewrite ceil_of_2 in H.
  apply (H 1%Z 2%Z 0%Z 2%Z).
  - unfold in_band. simpl. rewrite ceil_of_2. lia.
  - unfold in_band. simpl. rewrite ceil_of_2. lia.
  - rewrite !center_distance_sqr. apply sqrt_le_1_alt.
    replace (2 - 2)%Z with 0%Z by lia.
    replace (1 - 2)%Z with (-1)%Z by lia.
    replace (0 - 2)%Z with (-2)%Z by lia. lra.
Defined.

(** *** The kernels that are not normalized *)

Lemma ceil_small (max_distance : R) :
  -1 < max_distance <= 0 -> ceil max_distance = 0%Z.
Proof.
  intros [Hlo Hhi]. destruct (ceil_bounds max_distance) as [H1 H2].
  assert (Ha : IZR (ceil max_distance) < 1) by lra.
  assert (Hb : -1 < IZR (ceil max_distance)) by lra.
  apply lt_IZR in Ha, Hb. lia.
Qed.

(** X7: the values of the two kernels that are not normalized: 0 or 1 for the
    dichotomous kernel, between 0 and 0.75 for the density kernel; the
    centre pixel holds the largest, 1 and 0.75. *)
Theorem unnormalized_kernel_values
  (iterblocks : Z -> Z -> list block_data) (max_distance : R) :
  tiles_every_raster iterblocks ->
  0 < max_distance ->
  let r := ceil max_distance in
  let dk := dichotomous_kernel iterblocks max_distance in
  let dd := density_decay_kernel iterblocks max_distance in
  (forall x y, in_band dk x y ->
      (pixels dk x y = 1 /\ center_distance r x y <= max_distance) \/
      (pixels dk x y = 0 /\ max_distance < center_distance r x y)) /\
  (forall x y, in_band dd x y -> 0 <= pixels dd x y <= 0.75) /\
  pixels dk r r = 1 /\
  pixels dd r r = 0.75.
Proof.
  intros Ht Hmax. cbv zeta. set (r := ceil max_distance).
  assert (Hr : (0 <= r)%Z) by (pose proof (ceil_pos _ Hmax); subst r; lia).
  assert (Hpix := create_kernel_pixels iterblocks Ht).
  assert (Hinv : 0 < / max_distance) by now apply Rinv_0_lt_compat.
  assert (Hc : center_distance r r r = 0) by now apply center_distance_zero.
  split; [|split; [|split]].
  - intros x y [Hx Hy]. unfold dichotomous_kernel.
    rewrite (Hpix (_dichotomy max_distance) max_distance false Hr x y Hx Hy).
    fold r. unfold _dichotomy.
    destruct (Rle_dec (center_distance r x y) max_distance); [left|right];
      split; lra.
  - intros x y [Hx Hy]. unfold density_decay_kernel.
    rewrite (Hpix (_density max_distance) max_distance false Hr x y Hx Hy).
    fold r. unfold _density.
    pose proof (center_distance_nonneg r x y) as Hd.
    destruct (Rle_dec (center_distance r x y) max_distance) as [Hle|Hgt];
      [|lra].
    assert (0 <= center_distance r x y / max_distance <= 1).
    { unfold Rdiv. split; [apply Rmult_le_pos; lra|].
      apply (Rmult_le_reg_r max_distance); [lra|].
      rewrite Rmult_assoc, Rinv_l by lra. lra. }
    nra.
  - unfold dichotomous_kernel.
    rewrite (Hpix (_dichotomy max_distance) max_distance false Hr r r)
      by (simpl; fold r; lia).
    fold r. rewrite Hc. unfold _dichotomy.
    destruct (Rle_dec 0 max_distance); lra.
  - unfold density_decay_kernel.
    rewrite (Hpix (_density max_distance) max_distance false Hr r r)
      by (simpl; fold r; lia).
    fold r. rewrite Hc. unfold _density.
    destruct (Rle_dec 0 max_distance); [|lra].
    unfold Rdiv. rewrite Rmult_0_l. lra.
Qed.

Lemma unnormalized_kernel_values_witness :
  pixels (density_decay_kernel single_block 2) (ceil 2) (ceil 2) = 0.75.
Proof.
  assert (H2 : 0 < 2) by lra.
  apply (unnormalized_kernel_values single_block 2 single_block_tiles H2).
Defined.

(** X8: a [max_distance] above -1 and not above 0 gives a raster of one pixel;
    the dichotomous kernel holds 1 there when [max_distance] is 0, and 0
    when it is negative. *)
Theorem dichotomous_kernel_single_pixel
  (iterblocks : Z -> Z -> list block_data) (max_distance : R) :
  tiles_every_raster iterblocks ->
  -1 < max_distance <= 0 ->
  let ds := dichotomous_kernel iterblocks max_distance in
  RasterXSize ds = 1%Z /\ RasterYSize ds = 1%Z /\
  (max_distance = 0 -> pixels ds 0 0 = 1) /\
  (max_distance < 0 -> pixels ds 0 0 = 0).
Proof.
  intros Ht Hm. cbv zeta. pose proof (ceil_small _ Hm) as Hc.
  assert (Hr : (0 <= ceil max_distance)%Z) by lia.
  assert (Hpix := create_kernel_pixels iterblocks Ht
                    (_dichotomy max_distance) max_distance false Hr 0%Z 0%Z).
  cbv zeta in Hpix. simpl RasterXSize in *. simpl RasterYSize in *.
  rewrite Hc in *.
  assert (Hd : center_distance 0 0 0 = 0) by now apply center_distance_zero.
  rewrite Hd in Hpix. unfold dichotomous_kernel.
  split; [reflexivity|]. split; [reflexivity|].
  rewrite Hpix by lia. unfold _dichotomy.
  split; intros H; destruct (Rle_dec 0 max_distance); lra.
Qed.

Lemma dichotomous_kernel_single_pixel_witness :
  pixels (dichotomous_kernel single_block 0) 0 0 = 1 /\
  pixels (dichotomous_kernel single_block (-1 / 2)) 0 0 = 0.
Proof.
  assert (H0 : -1 < 0 <= 0) by lra.
  assert (Hh : -1 < -1 / 2 <= 0) by lra.
  split.
  - apply (dichotomous_kernel_single_pixel single_block 0
             single_block_tiles H0). reflexivity.
  - apply (dichotomous_kernel_single_pixel single_block (-1 / 2)
             single_block_tiles Hh). lra.
Defined.

(** *** Normalizing *)

Lemma Rsum_scale_l (c : R) {A : Type} (g : A -> R) (l : list A) :
  Rsum (map (fun a => c * g a) l) = c * Rsum (map g l).
Proof. induction l as [|a l IH]; simpl; [lra|rewrite IH; lra]. Qed.

(** X9: normalizing cancels a constant factor: the function [c * f], for a
    factor [c] that is not 0, gives the same normalized kernel as [f]. *)
Theorem normalization_cancels_factor
  (iterblocks : Z -> Z -> list block_data) (f : R -> R)
  (c max_distance : R) :
  tiles_every_raster iterblocks ->
  (0 <= ceil max_distance)%Z ->
  c <> 0 ->
  unnormalized_total f (ceil max_distance) <> 0 ->
  let scaled :=
    _create_distance_based_kernel iterblocks
      (elementwise (fun d => c * f d)) max_distance true in
  let plain :=
    _create_distance_based_kernel iterblocks (elementwise f)
      max_distance true in
  unnormalized_total (fun d => c * f d) (ceil max_distance)
  = c * unnormalized_total f (ceil max_distance) /\
  forall x y, in_band plain x y -> pixels scaled x y = pixels plain x y.
Proof.
  intros Ht Hr Hc Htot. cbv zeta.
  assert (Hscale : unnormalized_total (fun d => c * f d) (ceil max_distance)
                   = c * unnormalized_total f (ceil max_distance)).
  { unfold unnormalized_total.
    apply (Rsum_scale_l c
             (fun p => f (center_distance (ceil max_distance) (fst p) (snd p)))). }
  split; [exact Hscale|].
  intros x y [Hx Hy].
  rewrite (create_kernel_pixels iterblocks Ht (fun d => c * f d) max_distance
             true Hr x y Hx Hy).
  rewrite (create_kernel_pixels iterblocks Ht f max_distance true Hr x y Hx Hy).
  rewrite Hscale. now field.
Qed.

Lemma normalization_cancels_factor_witness :
  pixels (_create_distance_based_kernel single_block
            (elementwise (fun d => 3 * _linear_decay 2 d)) 2 true) 1 1
  = pixels (linear_decay_kernel single_block 2) 1 1.
Proof.
  assert (H2 : 0 < 2) by lra.
  assert (H3 : 3 <> 0) by lra.
  assert (Hr : (0 <= ceil 2)%Z) by (rewrite ceil_of_2; lia).
  assert (Htot : unnormalized_total (_linear_decay 2) (ceil 2) <> 0)
    by (apply Rgt_not_eq; now apply linear_decay_total_pos).
  apply (normalization_cancels_factor single_block (_linear_decay 2) 3 2
           single_block_tiles Hr H3 Htot).
  unfold in_band. simpl. rewrite ceil_of_2. lia.
Defined.

(** *** The band and the disc *)

Lemma center_distance_sqrt_sqrt (r x y : Z) :
  center_distance r x y * center_distance r x y
  = IZR (y - r) * IZR (y - r) + IZR (x - r) * IZR (x - r).
Proof. rewrite center_distance_sqr. apply sqrt_sqrt. nra. Qed.

(** X10: the band holds every pixel that lies within [max_distance] of the
    centre, and, for a positive [max_distance], it has three rows and
    columns or more. *)
Theorem kernel_holds_disc (iterblocks : Z -> Z -> list block_data)
  (function : ndarray -> ndarray) (max_distance : R) (normalize : bool) :
  (0 <= ceil max_distance)%Z ->
  let r := ceil max_distance in
  let ds := _create_distance_based_kernel iterblocks function
              max_distance normalize in
  (forall x y : Z, center_distance r x y <= max_distance -> in_band ds x y) /\
  (0 < max_distance -> (3 <= RasterXSize ds)%Z /\ (3 <= RasterYSize ds)%Z).
Proof.
  intros Hr. cbv zeta. set (r := ceil max_distance) in *. split.
  - intros x y Hd. unfold in_band. simpl. fold r.
    destruct (ceil_bounds max_distance) as [_ Hle]. fold r in Hle.
    pose proof (center_distance_nonneg r x y) as H0.
    pose proof (center_distance_sqrt_sqrt r x y) as Hsq.
    assert (Hr' : 0 <= IZR r) by now apply IZR_le.
    assert (Hdd : center_distance r x y * center_distance r x y
                  <= IZR r * IZR r) by nra.
    assert (Hx : IZR (x - r) * IZR (x - r) <= IZR r * IZR r) by nra.
    assert (Hy : IZR (y - r) * IZR (y - r) <= IZR r * IZR r) by nra.
    rewrite <- !mult_IZR in Hx, Hy. apply le_IZR in Hx, Hy. nia.
  - intros Hmax. pose proof (ceil_pos _ Hmax) as H1. fold r in H1.
    simpl. fold r. lia.
Qed.

Lemma kernel_holds_disc_witness :
  in_band (dichotomous_kernel single_block 2) 2 0.
Proof.
  assert (Hr : (0 <= ceil 2)%Z) by (rewrite ceil_of_2; lia).
  apply (kernel_holds_disc single_block (elementwise (_dichotomy 2)) 2 false
           Hr).
  rewrite ceil_of_2, center_distance_sqr.
  replace (0 - 2)%Z with (-2)%Z by lia. replace (2 - 2)%Z with 0%Z by lia.
  replace (-2 * -2 + 0 * 0) with (2 * 2) by ring.
  rewrite sqrt_square; lra.
Defined.

Lemma border_distance (r x y : Z) :
  (0 <= r)%Z ->
  (x = 0 \/ x = 2 * r \/ y = 0 \/ y = 2 * r)%Z ->
  IZR r <= center_distance r x y.
Proof.
  intros Hr Hb. assert (Hr' : 0 <= IZR r) by now apply IZR_le.
  rewrite center_distance_sqr.
  rewrite <- (sqrt_square (IZR r)) at 1 by exact Hr'.
  apply sqrt_le_1_alt.
  assert (Hsq : forall z : Z, (z = - r \/ z = r)%Z ->
                              IZR z * IZR z = IZR r * IZR r).
  { intros z [->| ->]; [rewrite opp_IZR; ring|reflexivity]. }
  destruct Hb as [Hb|[Hb|[Hb|Hb]]]; subst.
  - rewrite (Hsq (0 - r)%Z) by lia. nra.
  - rewrite (Hsq (2 * r - r)%Z) by lia. nra.
  - rewrite (Hsq (0 - r)%Z) by lia. nra.
  - rewrite (Hsq (2 * r - r)%Z) by lia. nra.
Qed.

(** X11: the outermost rows and columns: the linear and the density kernel
    hold 0 there; when [max_distance] is not a whole number, so do the
    dichotomous and the exponential kernel. *)
Theorem kernel_border (iterblocks : Z -> Z -> list block_data)
  (max_distance : R) (x y : Z) :
  tiles_every_raster iterblocks ->
  0 < max_distance ->
  let r := ceil max_distance in
  in_band (linear_decay_kernel iterblocks max_distance) x y ->
  (x = 0 \/ x = 2 * r \/ y = 0 \/ y = 2 * r)%Z ->
  pixels (linear_decay_kernel iterblocks max_distance) x y = 0 /\
  pixels (density_decay_kernel iterblocks max_distance) x y = 0 /\
  (max_distance < IZR r ->
   pixels (dichotomous_kernel iterblocks max_distance) x y = 0 /\
   pixels (exponential_decay_kernel iterblocks max_distance) x y = 0).
Proof.
  intros Ht Hmax r Hin Hb.
  assert (Hr : (0 <= r)%Z) by (pose proof (ceil_pos _ Hmax); subst r; lia).
  pose proof (border_distance r x y Hr Hb) as Hd.
  destruct (ceil_bounds max_distance) as [_ Hle]. fold r in Hle.
  assert (Hinv : 0 < / max_distance) by now apply Rinv_0_lt_compat.
  assert (Hpix := create_kernel_pixels iterblocks Ht).
  destruct (Rlt_dec max_distance (center_distance r x y)) as [Hfar|Hnear].
  - destruct (far_pixel_zero iterblocks max_distance x y Ht Hr Hin Hfar)
      as (H1 & H2 & H3 & H4).
    repeat split; assumption.
  - assert (Heq : center_distance r x y = max_distance) by lra.
    destruct Hin as [Hx Hy]. split; [|split].
    + unfold linear_decay_kernel.
      rewrite (Hpix (_linear_decay max_distance) max_distance true Hr x y
                 Hx Hy).
      fold r. rewrite Heq. unfold _linear_decay.
      destruct (Rlt_dec max_distance max_distance); [lra|].
      unfold Rdiv. rewrite Rminus_diag. rewrite !Rmult_0_l. reflexivity.
    + unfold density_decay_kernel.
      rewrite (Hpix (_density max_distance) max_distance false Hr x y Hx Hy).
      fold r. rewrite Heq. unfold _density.
      destruct (Rle_dec max_distance max_distance); [|lra].
      unfold Rdiv. rewrite Rinv_r by lra. lra.
    + intros Hlt. lra.
Qed.

Lemma kernel_border_witness :
  pixels (linear_decay_kernel single_block 2) 0 2 = 0.
Proof.
  assert (H2 : 0 < 2) by lra.
  apply (kernel_border single_block 2 0 2 single_block_tiles H2).
  - unfold in_band. simpl. rewrite ceil_of_2. lia.
  - left. reflexivity.
Defined.

(** *** The profile of the normalized kernels *)

(** X12: within [max_distance] of the centre, a pixel of a normalized kernel
    is the centre pixel times the decay at its distance: [exp (- d / max)],
    which is at least [exp (- 1)], for the exponential kernel,
    [1 - d / max] for the linear kernel, and [exp (- d ^ 2 / (2 sigma ^ 2))]
    for the Gaussian kernel. *)
Theorem normalized_kernel_profile
  (iterblocks : Z -> Z -> list block_data) (max_distance sigma n_std_dev : R) :
  tiles_every_raster iterblocks ->
  0 < max_distance -> 0 < sigma -> 0 < n_std_dev ->
  let r := ceil max_distance in
  let rg := ceil (sigma * n_std_dev) in
  let e := exponential_decay_kernel iterblocks max_distance in
  let l := linear_decay_kernel iterblocks max_distance in
  let g := gaussian_decay_kernel iterblocks sigma n_std_dev in
  (forall x y, in_band e x y ->
      let d := center_distance r x y in
      d <= max_distance ->
      pixels e x y = pixels e r r * exp (- d / max_distance) /\
      pixels e r r * exp (- 1) <= pixels e x y /\
      pixels l x y = pixels l r r * (1 - d / max_distance)) /\
  (forall x y, in_band g x y ->
      let d := center_distance rg x y in
      d <= sigma * n_std_dev ->
      pixels g x y = pixels g rg rg * exp (- d ^ 2 / (2 * sigma ^ 2))) /\
  0 < pixels e r r /\ 0 < pixels l r r /\ 0 < pixels g rg rg.
Proof.
  intros Ht Hmax Hs Hn. cbv zeta.
  assert (Hg : 0 < sigma * n_std_dev) by now apply Rmult_lt_0_compat.
  set (r := ceil max_distance). set (rg := ceil (sigma * n_std_dev)).
  assert (Hr : (0 <= r)%Z) by (pose proof (ceil_pos _ Hmax); subst r; lia).
  assert (Hrg : (0 <= rg)%Z) by (pose proof (ceil_pos _ Hg); subst rg; lia).
  pose proof (exp_decay_total_pos max_distance Hmax) as He. fold r in He.
  pose proof (linear_decay_total_pos max_distance Hmax) as Hl. fold r in Hl.
  pose proof (gaussian_decay_total_pos sigma n_std_dev Hs Hn) as Hgt.
  fold rg in Hgt.
  assert (Hpix := create_kernel_pixels iterblocks Ht).
  assert (Hc : center_distance r r r = 0) by now apply center_distance_zero.
  assert (Hcg : center_distance rg rg rg = 0) by now apply center_distance_zero.
  assert (Hec : pixels (exponential_decay_kernel iterblocks max_distance) r r
                = 1 / unnormalized_total (_exp_decay max_distance) r).
  { unfold exponential_decay_kernel.
    rewrite (Hpix (_exp_decay max_distance) max_distance true Hr r r)
      by (simpl; fold r; lia).
    fold r. rewrite Hc, exp_decay_zero by exact Hmax. reflexivity. }
  assert (Hlc : pixels (linear_decay_kernel iterblocks max_distance) r r
                = 1 / unnormalized_total (_linear_decay max_distance) r).
  { unfold linear_decay_kernel.
    rewrite (Hpix (_linear_decay max_distance) max_distance true Hr r r)
      by (simpl; fold r; lia).
    fold r. rewrite Hc, linear_decay_zero by exact Hmax. reflexivity. }
  assert (Hgc : pixels (gaussian_decay_kernel iterblocks sigma n_std_dev) rg rg
                = 1 / (2 * PI * sigma ^ 2)
                  / unnormalized_total
                      (_gaussian_decay sigma (sigma * n_std_dev)) rg).
  { unfold gaussian_decay_kernel.
    rewrite (Hpix (_gaussian_decay sigma (sigma * n_std_dev))
               (sigma * n_std_dev) true Hrg rg rg)
      by (simpl; fold rg; lia).
    fold rg. rewrite Hcg. unfold _gaussian_decay at 1.
    destruct (Rlt_dec (sigma * n_std_dev) 0); [lra|].
    replace (- 0 ^ 2 / (2 * sigma ^ 2)) with 0 by (field; lra).
    rewrite exp_0. f_equal. ring. }
  split; [|split; [|split; [|split]]].
  - intros x y [Hx Hy] Hd. rewrite Hec, Hlc.
    unfold exponential_decay_kernel, linear_decay_kernel.
    rewrite (Hpix (_exp_decay max_distance) max_distance true Hr x y Hx Hy).
    rewrite (Hpix (_linear_decay max_distance) max_distance true Hr x y Hx Hy).
    fold r. set (d := center_distance r x y) in *.
    pose proof (center_distance_nonneg r x y) as H0. fold d in H0.
    assert (Hev : _exp_decay max_distance d = exp (- d / max_distance)).
    { unfold _exp_decay. destruct (Rlt_dec max_distance d); [lra|reflexivity]. }
    assert (Hlv : _linear_decay max_distance d
                  = (max_distance - d) / max_distance).
    { unfold _linear_decay.
      destruct (Rlt_dec max_distance d); [lra|reflexivity]. }
    rewrite Hev, Hlv.
    set (te := unnormalized_total (_exp_decay max_distance) r) in *.
    set (tl := unnormalized_total (_linear_decay max_distance) r) in *.
    assert (Hinv : 0 < / te) by now apply Rinv_0_lt_compat.
    split; [field; lra|]. split; [|field; lra].
    replace (1 / te * exp (- 1)) with (exp (- 1) / te) by (field; lra).
    unfold Rdiv. apply Rmult_le_compat_r; [lra|]. apply exp_le.
    apply (Rmult_le_reg_r max_distance); [lra|].
    rewrite Rmult_assoc, Rinv_l by lra. lra.
  - intros x y [Hx Hy] Hd. rewrite Hgc. unfold gaussian_decay_kernel.
    rewrite (Hpix (_gaussian_decay sigma (sigma * n_std_dev))
               (sigma * n_std_dev) true Hrg x y Hx Hy).
    fold rg. set (d := center_distance rg x y) in *.
    assert (Hgv : _gaussian_decay sigma (sigma * n_std_dev) d
                  = 1 / (2 * PI * sigma ^ 2)
                    * exp (- d ^ 2 / (2 * sigma ^ 2))).
    { unfold _gaussian_decay.
      destruct (Rlt_dec (sigma * n_std_dev) d); [lra|reflexivity]. }
    rewrite Hgv.
    set (tg := unnormalized_total
                 (_gaussian_decay sigma (sigma * n_std_dev)) rg) in *.
    pose proof PI_RGT_0. field. repeat split; lra.
  - rewrite Hec. apply Rdiv_lt_0_compat; lra.
  - rewrite Hlc. apply Rdiv_lt_0_compat; lra.
  - rewrite Hgc. apply Rdiv_lt_0_compat; [|lra].
    now apply gaussian_amplitude_pos.
Qed.

Lemma normalized_kernel_profile_witness :
  0 < pixels (exponential_decay_kernel single_block 2) (ceil 2) (ceil 2).
Proof.
  assert (H1 : 0 < 1) by lra.
  assert (H2 : 0 < 2) by lra.
  assert (H3 : 0 < 3) by lra.
  apply (normalized_kernel_profile single_block 2 1 3
           single_block_tiles H2 H1 H3).
Defined.

End KernelProps.

(** ** Routing *)

Module RoutingProps.
Import Routing.

Local Open Scope Z_scope.

(** *** The propagation pass *)

Lemma tabulate_lookup {B : Type} (f : cell → B) (l : list cell) (c : cell) :
  tabulate f l !! c = (if decide (c ∈ l) then Some (f c) else None).
Proof.
  unfold tabulate. induction l as [|x l IH].
  - done.
  - rewrite fmap_cons, list_to_map_cons.
    destruct (decide (x = c)) as [->|Hne].
    + rewrite lookup_insert_eq. rewrite decide_True; [done|]. apply elem_of_cons; auto.
    + rewrite lookup_insert_ne by done. rewrite IH.
      destruct (decide (c ∈ l)) as [H|H].
      * rewrite decide_True; [done|]. apply elem_of_cons; auto.
      * rewrite decide_False; [done|]. rewrite elem_of_cons. intros [?|?]; by subst.
Qed.

(** In a finite set where every element has a predecessor inside the set,
    some element precedes itself. *)
Lemma finite_preds_cycle {B : Type} (T : relation B) (l : list B) :
  Transitive T →
  l ≠ [] →
  (∀ c, c ∈ l → ∃ s, s ∈ l ∧ T s c) →
  ∃ x, T x x.
Proof.
  intros HT. induction l as [|c l IH]; intros Hne Hpred; [done|].
  destruct (Hpred c) as (s & Hs & Hsc); [apply elem_of_cons; auto|].
  apply elem_of_cons in Hs. destruct Hs as [->|Hs]; [eauto|].
  apply IH.
  - intros ->. by apply elem_of_nil in Hs.
  - intros d Hd.
    destruct (Hpred d) as (p & Hp & Hpd); [apply elem_of_cons; auto|].
    apply elem_of_cons in Hp. destruct Hp as [->|Hp]; [|eauto].
    exists s. split; [done|]. by transitivity c.
Qed.

Section PropagateFacts.

Context {A : Type}.
Variable nodes : list cell.
Variable targets : cell → list cell.
Variable push : cell → cell → A → A → A.
Variable init : cell → A.

Hypothesis nodes_NoDup : NoDup nodes.
Hypothesis targets_NoDup : ∀ s, NoDup (targets s).
Hypothesis targets_closed : ∀ s t, s ∈ nodes → t ∈ targets s → t ∈ nodes.

Lemma relax_all (s : cell) (a : A) (l : list cell) :
  NoDup l →
  ∀ st : pstate,
    (∀ t, t ∈ l → ∃ n, pending st !! t = Some (S n)) →
    let st' := foldl (relax push s a) st l in
    queue st' = queue st ++ filter (λ t, pending st !! t = Some 1%nat) l ∧
    (∀ c, pending st' !! c =
          (if decide (c ∈ l) then pred <$> pending st !! c
           else pending st !! c)) ∧
    (∀ c, accum st' !! c =
          (if decide (c ∈ l) then push s c a <$> accum st !! c
           else accum st !! c)) ∧
    visited st' = visited st.
Proof.
  induction 1 as [|t l Ht Hl IH]; intros st Hpos; simpl.
  - rewrite app_nil_r. repeat split; intros; by rewrite decide_False by apply not_elem_of_nil.
  - destruct (Hpos t) as [n Hn]; [apply elem_of_cons; auto|].
    assert (Hst : relax push s a st t =
      mk_pstate (if decide (n = 0%nat) then queue st ++ [t] else queue st)
                (<[t := n]> (pending st))
                (alter (push s t a) t (accum st)) (visited st)).
    { unfold relax. by rewrite Hn. }
    rewrite Hst. clear Hst.
    match goal with |- context [foldl _ ?s0 l] => specialize (IH s0) end.
    destruct IH as (Hq & Hp & Ha & Hv).
    { intros t' Ht'. simpl. rewrite lookup_insert_ne by (intros ->; done).
      apply Hpos. apply elem_of_cons; auto. }
    simpl in *. repeat split.
    + rewrite Hq. rewrite filter_cons.
      assert (Hf : filter (λ t0, <[t:=n]> (pending st) !! t0 = Some 1%nat) l
                   = filter (λ t0, pending st !! t0 = Some 1%nat) l).
      { clear -Ht. induction l as [|x l IHl]; [done|].
        rewrite !filter_cons.
        rewrite lookup_insert_ne by (intros ->; apply Ht, elem_of_cons; auto).
        rewrite IHl; [done|]. intros H. apply Ht, elem_of_cons; auto. }
      rewrite Hf. rewrite Hn.
      destruct (decide (n = 0%nat)) as [->|Hn0].
      * rewrite decide_True by done. by rewrite <- app_assoc.
      * rewrite decide_False; [done|]. intros [= H]. lia.
    + intros c. rewrite Hp. destruct (decide (c = t)) as [->|Hne].
      * rewrite decide_False by done. rewrite decide_True by (apply elem_of_cons; auto).
        by rewrite lookup_insert_eq, Hn.
      * rewrite lookup_insert_ne by done.
        destruct (decide (c ∈ l)); [rewrite decide_True by (apply elem_of_cons; auto); done|].
        rewrite decide_False; [done|]. rewrite elem_of_cons. intros [?|?]; by subst.
    + intros c. rewrite Ha. destruct (decide (c = t)) as [->|Hne].
      * rewrite decide_False by done. rewrite decide_True by (apply elem_of_cons; auto).
        by rewrite lookup_alter_eq.
      * rewrite lookup_alter_ne by done.
        destruct (decide (c ∈ l)); [rewrite decide_True by (apply elem_of_cons; auto); done|].
        rewrite decide_False; [done|]. rewrite elem_of_cons. intros [?|?]; by subst.
    + done.
Qed.


Lemma filter_remove_length {B : Type} `{EqDecision B} (P : B → Prop)
  `{∀ x, Decision (P x)} (l : list B) (s : B) :
  NoDup l → s ∈ l → P s →
  S (length (filter (λ x, P x ∧ x ≠ s) l)) = length (filter P l).
Proof.
  induction 1 as [|x l Hx Hl IH]; intros Hin Hs.
  - by apply elem_of_nil in Hin.
  - rewrite !filter_cons. apply elem_of_cons in Hin.
    destruct (decide (x = s)) as [->|Hne].
    + rewrite decide_False by tauto. rewrite decide_True by done. simpl. f_equal.
      f_equal. clear IH Hin Hl. induction l as [|y l IHl]; [done|].
      rewrite !filter_cons. rewrite not_elem_of_cons in Hx. destruct Hx as [Hy Hx].
      rewrite (IHl Hx).
      destruct (decide (P y)); [rewrite decide_True by done|rewrite decide_False by tauto]; done.
    + destruct Hin as [->|Hin]; [done|].
      destruct (decide (P x)).
      * rewrite decide_True by done. simpl. f_equal. by apply IH.
      * rewrite decide_False by tauto. by apply IH.
Qed.

Lemma gather_ext (m1 m2 : gmap cell A) (seen : list cell) (c : cell) :
  (∀ s, s ∈ seen → m1 !! s = m2 !! s) →
  gather targets push init m1 seen c = gather targets push init m2 seen c.
Proof.
  induction seen as [|s seen IH]; intros Hm; [done|]. simpl.
  rewrite IH by (intros; apply Hm, elem_of_cons; auto).
  rewrite (Hm s) by (apply elem_of_cons; auto). done.
Qed.

Local Abbreviation Inv := (propagation_invariant nodes targets push init).

Lemma visit_invariant (s : cell) (rest : list cell) (pend : gmap cell nat)
  (acc : gmap cell A) (vis : list cell) :
  Inv (mk_pstate (s :: rest) pend acc vis) →
  Inv (visit targets push s (mk_pstate rest pend acc vis)) ∧
  visited (visit targets push s (mk_pstate rest pend acc vis)) = s :: vis.
Proof.
  intros (I1 & I2 & I3 & I4 & I5). simpl in *.
  assert (Hs : s ∈ nodes ∧ pend !! s = Some 0%nat).
  { apply I2. rewrite elem_of_app, elem_of_cons. auto. }
  destruct Hs as [Hsn Hsp].
  apply NoDup_app in I1. destruct I1 as (Hvis & Hdisj & Hq).
  apply NoDup_cons in Hq. destruct Hq as [Hsr Hrest].
  assert (Hsv : s ∉ vis).
  { intros H. apply (Hdisj s H). apply elem_of_cons; auto. }
  assert (Htp : ∀ t, t ∈ targets s → ∃ n, pend !! t = Some (S n)).
  { intros t Ht. rewrite (I3 t) by eauto.
    assert (Hin : s ∈ unvisited_preds nodes targets vis t)
      by (apply list_elem_of_filter; auto).
    destruct (unvisited_preds nodes targets vis t); [by apply elem_of_nil in Hin|].
    simpl. eauto. }
  assert (Hfresh : ∀ t, t ∈ targets s → t ∉ vis ++ s :: rest).
  { intros t Ht Hin. destruct (Htp t Ht) as [n Hn].
    destruct (I2 t Hin) as [_ H0]. congruence. }
  assert (Hself : s ∉ targets s).
  { intros H. apply (Hfresh s H). rewrite elem_of_app, elem_of_cons. auto. }
  unfold visit. simpl. rewrite (I5 s Hsn).
  set (a := gather targets push init acc vis s).
  destruct (relax_all s a (targets s) (targets_NoDup s)
              (mk_pstate rest pend acc (s :: vis)) Htp)
    as (Eq & Ep & Ea & Ev).
  simpl in *.
  set (st' := foldl (relax push s a) (mk_pstate rest pend acc (s :: vis)) (targets s)) in *.
  split; [|done].
  unfold propagation_invariant. rewrite Eq, Ev.
  split; [|split; [|split; [|split]]].
  - (* NoDup *)
    simpl. apply NoDup_cons. split.
    + rewrite !elem_of_app. intros [H|[H|H]]; [done..|].
      apply list_elem_of_filter in H. destruct H as [_ H]. done.
    + rewrite app_assoc. apply NoDup_app. split; [|split].
      * apply NoDup_app. split; [done|]. split; [|done].
        intros x Hx Hx'. apply (Hdisj x Hx). apply elem_of_cons; auto.
      * intros x Hx Hx'. apply list_elem_of_filter in Hx'. destruct Hx' as [_ Hx'].
        apply (Hfresh x Hx'). rewrite elem_of_app, elem_of_cons.
        apply elem_of_app in Hx. tauto.
      * apply NoDup_filter, targets_NoDup.
  - (* visited and queued cells wait for nothing *)
    intros c Hc. rewrite Ep.
    simpl in Hc. rewrite elem_of_cons, !elem_of_app in Hc.
    destruct (decide (c ∈ targets s)) as [Ht|Ht].
    + split; [eauto|].
      destruct Hc as [->|[Hc|[Hc|Hc]]]; try done.
      * exfalso. apply (Hfresh c Ht). rewrite elem_of_app. auto.
      * exfalso. apply (Hfresh c Ht). rewrite elem_of_app, elem_of_cons. auto.
      * apply list_elem_of_filter in Hc. destruct Hc as [Hc _]. by rewrite Hc.
    + destruct Hc as [->|[Hc|[Hc|Hc]]].
      * done.
      * apply I2. rewrite elem_of_app. auto.
      * apply I2. rewrite elem_of_app, elem_of_cons. auto.
      * apply list_elem_of_filter in Hc. tauto.
  - (* counters *)
    intros c Hc. rewrite Ep, (I3 c Hc). unfold unvisited_preds.
    destruct (decide (c ∈ targets s)) as [Ht|Ht]; simpl; f_equal.
    + rewrite <- (filter_remove_length (λ x, (x ∉ vis) ∧ (c ∈ targets x)) nodes s)
        by auto.
      simpl. f_equal. apply list_filter_iff. intros x.
      rewrite not_elem_of_cons. tauto.
    + f_equal. apply list_filter_iff. intros x. rewrite not_elem_of_cons.
      split; [|tauto]. intros [H1 H2]. split; [|done]. split; [|done].
      intros ->. done.
  - (* ready cells are queued *)
    intros c Hc. rewrite Ep. simpl. rewrite elem_of_cons, !elem_of_app.
    destruct (decide (c ∈ targets s)) as [Ht|Ht].
    + intros H0. right. right. right. apply list_elem_of_filter. split; [|done].
      destruct (Htp c Ht) as [n Hn]. rewrite Hn in H0 |- *. simpl in H0.
      injection H0 as H0. by subst n.
    + intros H0. specialize (I4 c Hc H0). rewrite elem_of_app, elem_of_cons in I4.
      tauto.
  - (* accumulators *)
    intros c Hc. rewrite Ea. simpl.
    assert (Hext : ∀ x, gather targets push init (accum st') vis x
                       = gather targets push init acc vis x).
    { intros x. apply gather_ext. intros y Hy. rewrite Ea.
      rewrite decide_False; [done|]. intros Ht. apply (Hfresh y Ht).
      rewrite elem_of_app. auto. }
    rewrite Hext. rewrite (Ea s).
    destruct (decide (s ∈ targets s)) as [?|_]; [done|]. rewrite (I5 s Hsn).
    rewrite (I5 c Hc). fold a.
    destruct (decide (c ∈ targets s)); done.
Qed.


Lemma initial_invariant : Inv (initial_state nodes targets init).
Proof.
  unfold propagation_invariant, initial_state. simpl.
  split; [by apply NoDup_filter|].
  split; [|split; [|split]].
  - intros c Hc. apply list_elem_of_filter in Hc. destruct Hc as [H0 Hc].
    split; [done|]. rewrite tabulate_lookup, decide_True by done. by rewrite H0.
  - intros c Hc. rewrite tabulate_lookup, decide_True by done.
    f_equal. unfold in_degree, unvisited_preds. f_equal.
    apply list_filter_iff. intros x. split; [|tauto].
    intros H. split; [apply not_elem_of_nil|done].
  - intros c Hc. rewrite tabulate_lookup, decide_True by done.
    intros [= H0]. apply list_elem_of_filter. done.
  - intros c Hc. by rewrite tabulate_lookup, decide_True.
Qed.

Lemma propagate_invariant (fuel : nat) (st : pstate) :
  Inv st →
  Inv (propagate targets push fuel st) ∧
  (queue (propagate targets push fuel st) = [] ∨
   length (visited (propagate targets push fuel st))
   = (length (visited st) + fuel)%nat).
Proof.
  revert st. induction fuel as [|fuel IH]; intros st HI; simpl.
  - split; [done|]. right. lia.
  - destruct st as [q pend acc vis]. simpl. destruct q as [|s rest].
    + split; [done|]. by left.
    + destruct (visit_invariant s rest pend acc vis HI) as [HI' Hv].
      destruct (IH _ HI') as [HI'' Hprog]. split; [done|].
      destruct Hprog as [?|Hlen]; [by left|right].
      rewrite Hlen, Hv. simpl. lia.
Qed.

Lemma invariant_all_visited (st : pstate) :
  acyclic targets → Inv st → queue st = [] →
  ∀ c, c ∈ nodes → c ∈ visited st.
Proof.
  intros Hacyc (I1 & I2 & I3 & I4 & I5) Hq c Hc.
  destruct (decide (c ∈ visited st)) as [|Hnv]; [done|]. exfalso.
  destruct (finite_preds_cycle (tc (flows_to targets))
              (filter (λ x, x ∉ visited st) nodes)) as [x Hx].
  - apply _.
  - intros Hnil. by apply (filter_nil_not_elem_of _ _ c Hnil Hnv).
  - intros d Hd. apply list_elem_of_filter in Hd. destruct Hd as [Hdv Hdn].
    assert (Hpos : unvisited_preds nodes targets (visited st) d ≠ []).
    { intros Hnil. apply Hdv.
      assert (H0 : pending st !! d = Some 0%nat) by (by rewrite (I3 d Hdn), Hnil).
      specialize (I4 d Hdn H0). by rewrite Hq, app_nil_r in I4. }
    destruct (unvisited_preds nodes targets (visited st) d) as [|p l] eqn:E; [done|].
    assert (Hp : p ∈ unvisited_preds nodes targets (visited st) d)
      by (rewrite E; apply elem_of_cons; auto).
    apply list_elem_of_filter in Hp. destruct Hp as [[Hpv Hpd] Hpn].
    exists p. split; [by apply list_elem_of_filter|]. by apply tc_once.
  - by apply (Hacyc x).
Qed.

Lemma propagate_dom (fuel : nat) (st : pstate) (c : cell) :
  is_Some (accum (propagate targets push fuel st) !! c) ↔
  is_Some (accum st !! c).
Proof.
  assert (Hrelax : ∀ s a l st0,
    is_Some (accum (foldl (relax push s a) st0 l) !! c) ↔ is_Some (accum st0 !! c)).
  { intros s a l. induction l as [|t l IH]; intros st0; simpl; [done|].
    rewrite IH. unfold relax. destruct (pending st0 !! t) as [[|n]|]; try done.
    simpl. destruct (decide (t = c)) as [->|Hne].
    - rewrite lookup_alter_eq. by rewrite fmap_is_Some.
    - by rewrite lookup_alter_ne. }
  revert st. induction fuel as [|fuel IH]; intros st; simpl; [done|].
  destruct (queue st) as [|s rest]; [done|].
  rewrite IH. unfold visit. simpl. destruct (accum st !! s); [|done].
  by rewrite Hrelax.
Qed.

(** Whatever holds of every accumulator at the start and is kept by every
    push holds of every accumulator at the end. *)
Lemma propagate_preserves (P : cell → A → Prop) (fuel : nat) (st : pstate) :
  (∀ s t a_s a_t, P s a_s → P t a_t → P t (push s t a_s a_t)) →
  (∀ c a, accum st !! c = Some a → P c a) →
  ∀ c a, accum (propagate targets push fuel st) !! c = Some a → P c a.
Proof.
  intros Hpush.
  assert (Hrelax : ∀ s a_s l st0,
    P s a_s →
    (∀ c a, accum st0 !! c = Some a → P c a) →
    ∀ c a, accum (foldl (relax push s a_s) st0 l) !! c = Some a → P c a).
  { intros s a_s l. induction l as [|t l IH]; intros st0 Hs H0; simpl; [done|].
    apply IH; [done|]. intros c a. unfold relax.
    destruct (pending st0 !! t) as [[|n]|]; try apply H0.
    simpl. destruct (decide (t = c)) as [->|Hne].
    - rewrite lookup_alter_eq. destruct (accum st0 !! c) as [a0|] eqn:E; [|done].
      intros [= <-]. apply Hpush; [done|]. by apply H0.
    - rewrite lookup_alter_ne by done. apply H0. }
  revert st. induction fuel as [|fuel IH]; intros st H0; simpl; [done|].
  destruct (queue st) as [|s rest]; [done|].
  apply IH. unfold visit. simpl. destruct (accum st !! s) as [a_s|] eqn:E; [|done].
  apply Hrelax; [by apply H0|done].
Qed.

Lemma run_propagation_preserves (P : cell → A → Prop) (m : gmap cell A) :
  (∀ s t a_s a_t, P s a_s → P t a_t → P t (push s t a_s a_t)) →
  (∀ c, c ∈ nodes → P c (init c)) →
  run_propagation nodes targets push init = Some m →
  ∀ c a, m !! c = Some a → P c a.
Proof.
  intros Hpush Hinit. unfold run_propagation.
  destruct (decide _); [|done]. intros Heq.
  replace m with (accum (propagate targets push (S (length nodes))
                                   (initial_state nodes targets init)))
    by congruence.
  apply propagate_preserves; [done|]. intros c a.
  unfold initial_state. cbn [accum].
  rewrite tabulate_lookup. destruct (decide (c ∈ nodes)); [|done].
  intros [= <-]. by apply Hinit.
Qed.

(** The pass over an acyclic graph: it does not stall, it visits the nodes
    in some order, and every accumulator has gathered what all the cells
    that push onto it hold. *)
Lemma run_propagation_spec :
  acyclic targets →
  ∃ (m : gmap cell A) (order : list cell),
    run_propagation nodes targets push init = Some m ∧
    order ≡ₚ nodes ∧
    (∀ c, c ∈ nodes → m !! c = Some (gather targets push init m order c)) ∧
    (∀ c, c ∉ nodes → m !! c = None).
Proof.
  intros Hacyc. unfold run_propagation.
  set (st := propagate targets push (S (length nodes))
                       (initial_state nodes targets init)).
  destruct (propagate_invariant (S (length nodes)) _ initial_invariant)
    as [HI Hprog]. fold st in HI, Hprog.
  assert (Hsub : ∀ c, c ∈ visited st → c ∈ nodes).
  { intros c Hc. apply HI. rewrite elem_of_app. auto. }
  assert (Hnd : NoDup (visited st)).
  { destruct HI as [H1 _]. by apply NoDup_app in H1 as [? _]. }
  assert (Hlen : (length (visited st) ≤ length nodes)%nat).
  { apply submseteq_length, NoDup_submseteq; done. }
  assert (Hq : queue st = []).
  { destruct Hprog as [|Hl]; [done|]. simpl in Hl. lia. }
  assert (Hall := invariant_all_visited st Hacyc HI Hq).
  assert (Hperm : visited st ≡ₚ nodes).
  { apply NoDup_Permutation; [done..|]. intros x. split; auto. }
  exists (accum st), (visited st).
  rewrite decide_True by (by rewrite Hperm).
  split; [done|]. split; [done|]. split.
  - apply HI.
  - intros c Hc. apply eq_None_not_Some. unfold st. rewrite propagate_dom. simpl.
    rewrite tabulate_lookup, decide_False by done. by intros [? ?].
Qed.

End PropagateFacts.

(** *** Grids *)

Lemma elem_of_grid_cells (rows cols : Z) (c : cell) :
  c ∈ grid_cells rows cols ↔ 0 ≤ c.1 < rows ∧ 0 ≤ c.2 < cols.
Proof.
  unfold grid_cells. rewrite list_elem_of_bind. split.
  - intros (r & Hc & Hr). apply list_elem_of_fmap in Hc.
    destruct Hc as (k & -> & Hk). apply elem_of_seqZ in Hr, Hk. simpl. lia.
  - intros [Hr Hc]. exists c.1. split; [|apply elem_of_seqZ; lia].
    apply list_elem_of_fmap. exists c.2. split; [by destruct c|].
    apply elem_of_seqZ. lia.
Qed.

Lemma NoDup_grid_cells (rows cols : Z) : NoDup (grid_cells rows cols).
Proof.
  unfold grid_cells. apply NoDup_bind.
  - intros r1 r2 c _ _ H1 H2. apply list_elem_of_fmap in H1, H2.
    destruct H1 as (k1 & -> & _), H2 as (k2 & [= -> _] & _). done.
  - intros r _. apply NoDup_fmap; [|apply NoDup_seqZ]. by intros ? ? [= ->].
  - apply NoDup_seqZ.
Qed.

Section Values.

Context {A : Type} `{EqDecision A}.

Lemma is_valid_true (g : raster A) (c : cell) :
  is_valid g c = true ↔ is_Some (value g c).
Proof. unfold is_valid. by rewrite bool_decide_eq_true. Qed.

Lemma value_in_grid (g : raster A) (c : cell) (v : A) :
  value g c = Some v → 0 ≤ c.1 < n_rows g ∧ 0 ≤ c.2 < n_cols g.
Proof.
  unfold value, in_grid. destruct (_ && _) eqn:E; [|done]. intros _.
  apply andb_prop in E as [E E4]. apply andb_prop in E as [E E3].
  apply andb_prop in E as [E1 E2]. lia.
Qed.

Lemma elem_of_valid_cells (g : raster A) (c : cell) :
  c ∈ valid_cells g ↔ is_valid g c = true.
Proof.
  unfold valid_cells. rewrite list_elem_of_filter, elem_of_grid_cells.
  split; [tauto|]. intros H. split; [done|].
  apply is_valid_true in H as [v Hv]. by eapply value_in_grid.
Qed.

Lemma NoDup_valid_cells (g : raster A) : NoDup (valid_cells g).
Proof. apply NoDup_filter, NoDup_grid_cells. Qed.

End Values.

(** *** Sums *)

Lemma Qcsum_cons (a : Qc) (l : list Qc) : Qcsum (a :: l) = (a + Qcsum l)%Qc.
Proof. reflexivity. Qed.

Lemma Qcsum_app (l1 l2 : list Qc) : Qcsum (l1 ++ l2) = (Qcsum l1 + Qcsum l2)%Qc.
Proof.
  induction l1 as [|a l1 IH].
  - change (Qcsum l2 = (0 + Qcsum l2)%Qc). ring.
  - rewrite <- app_comm_cons, !Qcsum_cons, IH. ring.
Qed.

Lemma Qcsum_perm (l1 l2 : list Qc) : l1 ≡ₚ l2 → Qcsum l1 = Qcsum l2.
Proof.
  induction 1 as [|x l1 l2 _ IH|x y l|l1 l2 l3 _ IH1 _ IH2].
  - done.
  - by rewrite !Qcsum_cons, IH.
  - rewrite !Qcsum_cons. ring.
  - by rewrite IH1.
Qed.

Lemma Qcsum_filter {B : Type} (P : B → Prop) `{∀ x, Decision (P x)}
  (f : B → Qc) (l : list B) :
  Qcsum ((λ x, if decide (P x) then f x else 0%Qc) <$> l)
  = Qcsum (f <$> filter P l).
Proof.
  induction l as [|x l IH]; [done|].
  rewrite filter_cons, fmap_cons, Qcsum_cons, IH.
  destruct (decide (P x)); [by rewrite fmap_cons, Qcsum_cons|ring].
Qed.

Lemma Qcsum_nonneg (l : list Qc) :
  (∀ x, x ∈ l → (0 ≤ x)%Qc) → (0 ≤ Qcsum l)%Qc.
Proof.
  induction l as [|a l IH]; intros H; [apply Qcle_refl|].
  rewrite Qcsum_cons. apply Qcplus_nonneg_nonneg.
  - apply H, elem_of_cons; auto.
  - apply IH. intros x Hx. apply H, elem_of_cons; auto.
Qed.

(** *** Flow accumulation, D8 *)

Lemma downstream_d8_valid (flow_dir : raster Z) (s t : cell) :
  downstream_d8 flow_dir s = Some t →
  is_valid flow_dir s = true ∧ is_valid flow_dir t = true ∧
  ∃ d, 0 ≤ d ≤ 7 ∧ value flow_dir s = Some d ∧ t = neighbor s d.
Proof.
  unfold downstream_d8, d8_target.
  destruct (value flow_dir s) as [d|] eqn:E; [|done].
  destruct (bool_decide (0 ≤ d ≤ 7)) eqn:Ed; [|done].
  destruct (is_valid flow_dir (neighbor s d)) eqn:Ev; [|done].
  intros [= <-]. apply bool_decide_eq_true in Ed.
  split; [|split; [done|eauto]].
  apply is_valid_true. rewrite E. eauto.
Qed.

Lemma elem_of_d8_targets (flow_dir : raster Z) (s t : cell) :
  t ∈ d8_targets flow_dir s ↔ downstream_d8 flow_dir s = Some t.
Proof.
  unfold d8_targets. destruct (downstream_d8 flow_dir s) as [t'|]; simpl.
  - rewrite list_elem_of_singleton. split; [by intros ->|by intros [= ->]].
  - split; [intros H; by apply elem_of_nil in H|done].
Qed.

Lemma NoDup_d8_targets (flow_dir : raster Z) (s : cell) :
  NoDup (d8_targets flow_dir s).
Proof.
  unfold d8_targets. destruct (downstream_d8 flow_dir s); simpl.
  - apply NoDup_singleton.
  - apply NoDup_nil_2.
Qed.

Lemma d8_targets_closed (flow_dir : raster Z) (s t : cell) :
  s ∈ valid_cells flow_dir → t ∈ d8_targets flow_dir s →
  t ∈ valid_cells flow_dir.
Proof.
  intros _ Ht. apply elem_of_d8_targets, downstream_d8_valid in Ht.
  apply elem_of_valid_cells. tauto.
Qed.

Lemma neighbor_reverse (c : cell) (d : Z) :
  0 ≤ d ≤ 7 → neighbor (neighbor c d) (REVERSE_DIRECTION d) = c.
Proof.
  intros Hd. destruct c as [r k]. unfold neighbor, REVERSE_DIRECTION. simpl.
  assert (d = 0 ∨ d = 1 ∨ d = 2 ∨ d = 3 ∨ d = 4 ∨ d = 5 ∨ d = 6 ∨ d = 7)
    as H by lia.
  destruct H as [->|[->|[->|[->|[->|[->|[->| ->]]]]]]]; simpl; f_equal; lia.
Qed.

Lemma NoDup_neighbors (c : cell) : NoDup (neighbor c <$> directions).
Proof.
  destruct c as [r k]. unfold directions, neighbor. simpl.
  repeat (apply NoDup_cons; split;
          [rewrite ?elem_of_cons, elem_of_nil; intros H;
           repeat (destruct H as [H|H]; [inversion H; lia|]); done|]).
  apply NoDup_nil_2.
Qed.

Lemma upstream_d8_perm (flow_dir : raster Z) (c : cell) :
  upstream_d8 flow_dir c ≡ₚ
  filter (λ n, downstream_d8 flow_dir n = Some c) (valid_cells flow_dir).
Proof.
  apply NoDup_Permutation.
  - apply NoDup_filter, NoDup_neighbors.
  - apply NoDup_filter, NoDup_valid_cells.
  - intros n. unfold upstream_d8. rewrite !list_elem_of_filter.
    split; intros [Hd Hn]; (split; [done|]).
    + apply elem_of_valid_cells. by apply downstream_d8_valid in Hd as [? _].
    + apply downstream_d8_valid in Hd as (_ & _ & d & Hd & _ & ->).
      apply list_elem_of_fmap. exists (REVERSE_DIRECTION d).
      split; [by rewrite neighbor_reverse|].
      apply elem_of_seqZ. unfold REVERSE_DIRECTION.
      pose proof (Z.mod_pos_bound (d + 4) 8). lia.
Qed.

Lemma acyclic_by_rank (targets : cell → list cell) (rank : cell → Z) :
  (∀ s t, t ∈ targets s → rank s < rank t) → acyclic targets.
Proof.
  intros Hrank c Hc.
  assert (H : ∀ x y, tc (flows_to targets) x y → rank x < rank y).
  { induction 1 as [x y Hxy|x y z Hxy _ IH].
    - by apply Hrank.
    - specialize (Hrank x y Hxy). lia. }
  specialize (H c c Hc). lia.
Qed.

Lemma rank_increases_d8_acyclic (flow_dir : raster Z) (rank : cell → Z) :
  rank_increases_d8 flow_dir rank = true → acyclic_d8 flow_dir.
Proof.
  intros Hok. apply (acyclic_by_rank _ rank). intros s t Ht.
  apply elem_of_d8_targets in Ht.
  unfold rank_increases_d8 in Hok. rewrite forallb_forall in Hok.
  assert (Hs : s ∈ valid_cells flow_dir).
  { apply elem_of_valid_cells. by apply downstream_d8_valid in Ht as [? _]. }
  apply list_elem_of_In in Hs. specialize (Hok s Hs). rewrite Ht in Hok. lia.
Qed.

Lemma gather_sum (targets : cell → list cell) (init : cell → Qc)
  (m : gmap cell Qc) (seen : list cell) (c : cell) :
  gather targets (λ _ _ a_s a_t, (a_t + a_s)%Qc) init m seen c
  = (init c
     + Qcsum ((λ s, if decide (c ∈ targets s)
                     then default 0%Qc (m !! s) else 0%Qc) <$> seen))%Qc.
Proof.
  unfold gather. induction seen as [|s seen IH].
  - change (init c = (init c + 0)%Qc). ring.
  - rewrite fmap_cons, Qcsum_cons. cbn [foldr]. rewrite IH.
    destruct (decide (c ∈ targets s)); [|ring].
    destruct (m !! s) as [q|]; cbv [from_option Datatypes.id]; ring.
Qed.

(** The accumulation of an acyclic D8 grid: the pass succeeds, and the
    float64 raster it writes holds, at every cell with data, the weight of
    the cell plus the values of the neighbours that point at it. *)
Lemma flow_accumulation_d8_recurrence (flow_dir : raster Z)
  (weights : option (raster Qc)) :
  acyclic_d8 flow_dir →
  ∃ out : raster Qc,
    flow_accumulation_d8 flow_dir weights = Some out ∧
    dtype out = Float64 ∧
    n_rows out = n_rows flow_dir ∧ n_cols out = n_cols flow_dir ∧
    (∀ c, is_valid flow_dir c = false → cells out !! c = None) ∧
    (∀ c, is_valid flow_dir c = true →
          cells out !! c =
          Some (weight_of weights c
                + Qcsum (at_cell out <$> upstream_d8 flow_dir c))%Qc).
Proof.
  intros Hacyc. unfold flow_accumulation_d8.
  destruct (run_propagation_spec (valid_cells flow_dir) (d8_targets flow_dir)
              (λ _ _ a_s a_t, (a_t + a_s)%Qc) (weight_of weights)
              (NoDup_valid_cells flow_dir) (NoDup_d8_targets flow_dir)
              (d8_targets_closed flow_dir) Hacyc)
    as (m & order & Hrun & Hperm & Hacc & Hout).
  unfold d8_targets in Hrun. rewrite Hrun.
  exists (float64_output flow_dir m). simpl.
  split; [done|]. split; [done|]. split; [done|]. split; [done|]. split.
  - intros c Hc. apply Hout. rewrite elem_of_valid_cells. by rewrite Hc.
  - intros c Hc. rewrite Hacc by (by apply elem_of_valid_cells).
    rewrite gather_sum. f_equal. f_equal.
    rewrite (Qcsum_perm _ _ (fmap_Permutation _ _ _ Hperm)).
    rewrite (Qcsum_filter (λ s, c ∈ d8_targets flow_dir s)
                          (λ s, default 0%Qc (m !! s))).
    apply Qcsum_perm, fmap_Permutation.
    rewrite upstream_d8_perm.
    erewrite list_filter_iff; [done|]. intros x. apply elem_of_d8_targets.
Qed.

Lemma flow_accumulation_d8_nonneg (flow_dir : raster Z)
  (weights : option (raster Qc)) (out : raster Qc) :
  (∀ c, (0 ≤ weight_of weights c)%Qc) →
  flow_accumulation_d8 flow_dir weights = Some out →
  ∀ c, (0 ≤ at_cell out c)%Qc.
Proof.
  intros Hw. unfold flow_accumulation_d8.
  destruct (run_propagation _ _ _ _) as [m|] eqn:Hrun; [|done].
  intros [= <-] c. unfold at_cell. simpl.
  destruct (m !! c) as [a|] eqn:E; [|apply Qcle_refl]. simpl.
  eapply (run_propagation_preserves _ _ _ _ (λ _ a, (0 ≤ a)%Qc) m);
    [| |exact Hrun|exact E].
  - intros s t a_s a_t Hs Ht. by apply Qcplus_nonneg_nonneg.
  - intros c' _. apply Hw.
Qed.

(** C1 (as amended): for every acyclic D8 direction grid and optional
    weight grid (weight 1 per cell without one), [flow_accumulation_d8]
    writes a float64 grid whose value at every cell with data is the weight
    of the cell plus the sum of the values of the neighbours whose direction
    points at it; when no weight is negative, every such value is at least
    the weight of its cell; and on the 11x11 regression direction grid the
    output is the hand-computed pyramid, whose largest value is 6. *)
Theorem flow_accumulation_d8_correct (flow_dir : raster Z)
  (weights : option (raster Qc)) :
  acyclic_d8 flow_dir →
  (∃ out : raster Qc,
      flow_accumulation_d8 flow_dir weights = Some out ∧
      dtype out = Float64 ∧
      n_rows out = n_rows flow_dir ∧ n_cols out = n_cols flow_dir ∧
      (∀ c, is_valid flow_dir c = false → cells out !! c = None) ∧
      (∀ c, is_valid flow_dir c = true →
            cells out !! c =
            Some (weight_of weights c
                  + Qcsum (at_cell out <$> upstream_d8 flow_dir c))%Qc) ∧
      ((∀ c, (0 ≤ weight_of weights c)%Qc) →
       ∀ c, is_valid flow_dir c = true →
            (weight_of weights c ≤ at_cell out c)%Qc)) ∧
  (as_fractions ∘ ReadAsArray) <$> flow_accumulation_d8 plateau_flow_dir None
  = Some (whole_numbers plateau_flow_accum_array) ∧
  array_max plateau_flow_accum_array = 6.
Proof.
  intros Hacyc. split; [|split; [by vm_compute|done]].
  destruct (flow_accumulation_d8_recurrence flow_dir weights Hacyc)
    as (out & Hrun & Ht & Hr & Hc & Hnd & Hrec).
  exists out. repeat (split; [done|]).
  intros Hw c Hv. unfold at_cell at 1. rewrite (Hrec c Hv).
  cbv [from_option Datatypes.id].
  rewrite <- (Qcplus_0_r (weight_of weights c)) at 1.
  apply Qcplus_le_compat; [apply Qcle_refl|].
  apply Qcsum_nonneg. intros x Hx. apply list_elem_of_fmap in Hx.
  destruct Hx as (n & -> & _).
  by apply (flow_accumulation_d8_nonneg flow_dir weights).
Qed.

Lemma plateau_flow_dir_acyclic : acyclic_d8 plateau_flow_dir.
Proof.
  apply (rank_increases_d8_acyclic _ (rank_of_array plateau_flow_accum_array)).
  by vm_compute.
Qed.

Lemma flow_accumulation_d8_correct_witness :
  ∃ out : raster Qc,
    flow_accumulation_d8 plateau_flow_dir None = Some out ∧
    ∀ c, is_valid plateau_flow_dir c = true →
         cells out !! c =
         Some (1 + Qcsum (at_cell out <$> upstream_d8 plateau_flow_dir c))%Qc.
Proof.
  destruct (flow_accumulation_d8_correct plateau_flow_dir None
              plateau_flow_dir_acyclic)
    as [(out & Hrun & _ & _ & _ & _ & Hrec & _) _].
  exists out. split; [exact Hrun|exact Hrec].
Defined.

(** With negative weights a cell can end below its own weight: two cells,
    the first draining into the second, with weight -1 each, accumulate -1
    and -2. *)
Lemma flow_accumulation_d8_below_weight :
  acyclic_d8 two_cell_flow_dir ∧
  (λ out, this (at_cell out (0%Z, 1%Z)))
    <$> flow_accumulation_d8 two_cell_flow_dir (Some negative_weights)
  = Some (-2 # 1)%Q ∧
  this (weight_of (Some negative_weights) (0%Z, 1%Z)) = (-1 # 1)%Q ∧
  ¬ (weight_of (Some negative_weights) (0%Z, 1%Z)
     ≤ Q2Qc (-2 # 1))%Qc.
Proof.
  split; [|split; [by vm_compute|split; [by vm_compute|]]].
  - apply (rank_increases_d8_acyclic _ snd). by vm_compute.
  - apply Qclt_not_le. by vm_compute.
Qed.

(** *** The flood *)

Lemma filter_ext_in {B : Type} (P Q : B → Prop) `{∀ x, Decision (P x)}
  `{∀ x, Decision (Q x)} (l : list B) :
  (∀ x, x ∈ l → (P x ↔ Q x)) → filter P l = filter Q l.
Proof.
  induction l as [|a l IH]; intros HPQ; [done|].
  rewrite !filter_cons.
  rewrite IH by (intros x Hx; apply HPQ, elem_of_cons; auto).
  destruct (decide (P a)) as [Ha|Ha].
  - rewrite decide_True; [done|]. apply HPQ; [apply elem_of_cons; auto|done].
  - rewrite decide_False; [done|]. intros Hq. apply Ha.
    apply HPQ; [apply elem_of_cons; auto|done].
Qed.

Lemma filter_remove_list_length {B : Type} `{EqDecision B} (P : B → Prop)
  `{∀ x, Decision (P x)} (l new : list B) :
  NoDup l → NoDup new → (∀ x, x ∈ new → x ∈ l ∧ P x) →
  (length (filter (λ x, P x ∧ x ∉ new) l) + length new)%nat
  = length (filter P l).
Proof.
  intros Hl. induction 1 as [|a new Ha Hnew IH]; intros Hin.
  - simpl. rewrite Nat.add_0_r. f_equal. apply list_filter_iff.
    intros x. split; [tauto|]. intros Hx. split; [done|apply not_elem_of_nil].
  - rewrite <- IH by (intros x Hx; apply Hin, elem_of_cons; auto).
    destruct (Hin a) as [Hal HPa]; [apply elem_of_cons; auto|].
    rewrite <- (filter_remove_length (λ x, P x ∧ x ∉ new) l a) by auto.
    simpl. rewrite <- Nat.add_succ_r. f_equal. f_equal. apply list_filter_iff.
    intros x. rewrite not_elem_of_cons. tauto.
Qed.

Section FloodFacts.

Context {V : Type}.
Variable nbrs : cell → list cell.
Variable spread : cell → V → cell → V.
Variable pop : gmap cell V → list cell → option (cell * list cell).

Hypothesis pop_perm :
  ∀ m q c rest, pop m q = Some (c, rest) → q ≡ₚ c :: rest.
Hypothesis pop_none : ∀ m q, pop m q = None → q = [].
Hypothesis nbrs_NoDup : ∀ c, NoDup (nbrs c).

Lemma claim_all (c : cell) (v : V) (l : list cell) :
  NoDup l →
  ∀ (q : list cell) (m : gmap cell V),
    (foldl (claim spread c v) (q, m) l).1
    = q ++ filter (λ n, m !! n = None) l ∧
    ∀ x, (foldl (claim spread c v) (q, m) l).2 !! x =
         (if decide (x ∈ l ∧ m !! x = None)
          then Some (spread c v x) else m !! x).
Proof.
  induction 1 as [|t l Ht Hl IH]; intros q m; cbn [foldl].
  - split; [by rewrite app_nil_r|]. intros x.
    rewrite decide_False; [done|]. intros [Hx _]. by apply elem_of_nil in Hx.
  - destruct (m !! t) as [vt|] eqn:Et.
    + assert (Hcl : claim spread c v (q, m) t = (q, m))
        by (unfold claim; simpl; by rewrite Et).
      rewrite !Hcl. destruct (IH q m) as [Hq Hm]. split.
      * rewrite Hq, filter_cons, decide_False; [done|]. by rewrite Et.
      * intros x. rewrite Hm.
        destruct (decide (x ∈ l ∧ m !! x = None)) as [Hx|Hx].
        -- rewrite decide_True; [done|]. rewrite elem_of_cons. tauto.
        -- rewrite decide_False; [done|]. rewrite elem_of_cons.
           intros [[->|Hxl] Hn]; [congruence|tauto].
    + assert (Hcl : claim spread c v (q, m) t
                    = (q ++ [t], <[t := spread c v t]> m))
        by (unfold claim; simpl; by rewrite Et).
      rewrite !Hcl.
      destruct (IH (q ++ [t]) (<[t := spread c v t]> m)) as [Hq Hm]. split.
      * rewrite Hq, filter_cons, decide_True, <- app_assoc by done. cbn [app].
        f_equal. f_equal. apply filter_ext_in. intros x Hx.
        rewrite lookup_insert_ne; [done|]. by intros ->.
      * intros x. rewrite Hm. destruct (decide (x = t)) as [->|Hne].
        -- rewrite lookup_insert_eq. rewrite decide_False by tauto.
           rewrite decide_True; [done|]. rewrite elem_of_cons. auto.
        -- rewrite lookup_insert_ne by done.
           destruct (decide (x ∈ l ∧ m !! x = None)) as [Hx|Hx].
           ++ rewrite decide_True; [done|]. rewrite elem_of_cons. tauto.
           ++ rewrite decide_False; [done|]. rewrite elem_of_cons.
              intros [[->|Hxl] Hn]; [done|tauto].
Qed.

(** A cell that holds a value keeps it. *)
Lemma flood_extends (fuel : nat) (q : list cell) (m : gmap cell V)
  (x : cell) (v : V) :
  m !! x = Some v → (flood nbrs spread pop fuel q m).2 !! x = Some v.
Proof.
  revert q m. induction fuel as [|fuel IH]; intros q m Hx; simpl; [done|].
  destruct (pop m q) as [[c rest]|]; [|done].
  destruct (m !! c) as [vc|]; [|by apply IH].
  apply IH. destruct (claim_all c vc (nbrs c) (nbrs_NoDup c) rest m) as [_ Hm].
  rewrite Hm. rewrite decide_False; [done|]. intros [_ Hn]. congruence.
Qed.

(** What holds of the values at the start and is kept when a popped cell
    gives a value to a neighbour that held none, holds at the end. *)
Lemma flood_invariant (P : gmap cell V → Prop) :
  (∀ m c v n, P m → m !! c = Some v → n ∈ nbrs c → m !! n = None →
              P (<[n := spread c v n]> m)) →
  ∀ fuel q m, P m → P (flood nbrs spread pop fuel q m).2.
Proof.
  intros Hstep.
  assert (Hfold : ∀ c v l q m,
    (∀ n, n ∈ l → n ∈ nbrs c) → m !! c = Some v → P m →
    P (foldl (claim spread c v) (q, m) l).2).
  { intros c v l. induction l as [|t l IH]; intros q m Hl Hc HP; [done|].
    simpl. unfold claim at 2. simpl.
    assert (Hl' : ∀ n, n ∈ l → n ∈ nbrs c)
      by (intros n Hn; apply Hl, elem_of_cons; auto).
    destruct (m !! t) as [vt|] eqn:Et; [by apply IH|].
    apply IH; [done| |].
    - rewrite lookup_insert_ne; [done|]. intros ->. congruence.
    - apply Hstep; [done..| |done]. apply Hl, elem_of_cons; auto. }
  induction fuel as [|fuel IH]; intros q m HP; simpl; [done|].
  destruct (pop m q) as [[c rest]|]; [|done].
  destruct (m !! c) as [vc|] eqn:Ec; [|by apply IH].
  apply IH. by apply Hfold.
Qed.

Section Complete.

Variable nodes : list cell.
Hypothesis nodes_NoDup : NoDup nodes.
Hypothesis nbrs_nodes : ∀ c n, n ∈ nbrs c → n ∈ nodes.

Lemma flood_drains (fuel : nat) (q : list cell) (m : gmap cell V) :
  flood_ready nbrs nodes q m →
  (length q + length (filter (λ c, m !! c = None) nodes) ≤ fuel)%nat →
  (flood nbrs spread pop fuel q m).1 = [] ∧
  flood_ready nbrs nodes [] (flood nbrs spread pop fuel q m).2.
Proof.
  revert q m. induction fuel as [|fuel IH]; intros q m HK Hfuel; simpl.
  - destruct q; [done|]. simpl in Hfuel. lia.
  - destruct (pop m q) as [[c rest]|] eqn:Epop.
    2:{ apply pop_none in Epop. by subst q. }
    apply pop_perm in Epop. destruct HK as (Hnd & Hq & Hdom & Hcl).
    assert (Hc : is_Some (m !! c)).
    { apply Hq. rewrite Epop. apply elem_of_cons; auto. }
    destruct Hc as [vc Hc]. rewrite Hc.
    destruct (claim_all c vc (nbrs c) (nbrs_NoDup c) rest m) as [Eq Em].
    set (st := foldl (claim spread c vc) (rest, m) (nbrs c)) in *.
    set (new := filter (λ n, m !! n = None) (nbrs c)) in *.
    rewrite Epop in Hnd. apply NoDup_cons in Hnd as [Hcr Hrest].
    assert (Hnew : ∀ x, x ∈ new ↔ x ∈ nbrs c ∧ m !! x = None).
    { intros x. unfold new. rewrite list_elem_of_filter. tauto. }
    assert (Hsome : ∀ x, is_Some (st.2 !! x) ↔ is_Some (m !! x) ∨ x ∈ new).
    { intros x. rewrite Em, Hnew.
      destruct (decide (x ∈ nbrs c ∧ m !! x = None)) as [Hx|Hx].
      - split; [auto|]. intros _. eauto.
      - split; [auto|]. intros [?|?]; [done|tauto]. }
    apply IH.
    + split; [|split; [|split]].
      * rewrite Eq. apply NoDup_app. split; [done|]. split.
        -- intros x Hx Hx'. apply Hnew in Hx' as [_ Hx'].
           destruct (Hq x) as [? ?]; [|congruence].
           rewrite Epop. apply elem_of_cons; auto.
        -- by apply NoDup_filter.
      * intros x. rewrite Eq, elem_of_app, Hsome. intros [Hx|Hx]; [|auto].
        left. apply Hq. rewrite Epop. apply elem_of_cons; auto.
      * intros x. rewrite Hsome. intros [Hx|Hx]; [auto|].
        apply Hnew in Hx as [Hx _]. eauto.
      * intros x. rewrite Hsome, Eq. intros [Hx|Hx].
        -- destruct (Hcl x Hx) as [Hxq|Hxn].
           ++ rewrite Epop in Hxq. apply elem_of_cons in Hxq as [->|Hxq].
              ** right. intros n Hn. rewrite Hsome, Hnew.
                 destruct (m !! n) eqn:En; [left; eauto|auto].
              ** left. rewrite elem_of_app. auto.
           ++ right. intros n Hn. rewrite Hsome. auto.
        -- left. rewrite elem_of_app. auto.
    + rewrite Eq, length_app.
      assert (Hcount :
        (length (filter (λ x, st.2 !! x = None) nodes) + length new)%nat
        = length (filter (λ x, m !! x = None) nodes)).
      { rewrite <- (filter_remove_list_length (λ x, m !! x = None) nodes new).
        - f_equal. f_equal. apply list_filter_iff. intros x.
          rewrite !eq_None_not_Some, Hsome. tauto.
        - done.
        - by apply NoDup_filter.
        - intros x Hx. apply Hnew in Hx as [Hx Hn]. eauto. }
      rewrite (Permutation_length Epop) in Hfuel. simpl in Hfuel. lia.
Qed.

End Complete.

End FloodFacts.

Lemma pop_first_perm {V : Type} (m : gmap cell V) (q : list cell) (c : cell)
  (rest : list cell) :
  pop_first m q = Some (c, rest) → q ≡ₚ c :: rest.
Proof. destruct q; [done|]. by intros [= -> ->]. Qed.

Lemma pop_first_none {V : Type} (m : gmap cell V) (q : list cell) :
  pop_first m q = None → q = [].
Proof. by destruct q. Qed.

(** *** Distance to channel, D8 *)

Lemma d8_target_valid (flow_dir : raster Z) (n c : cell) :
  d8_target flow_dir n = Some c →
  ∃ d, 0 ≤ d ≤ 7 ∧ value flow_dir n = Some d ∧ c = neighbor n d.
Proof.
  unfold d8_target. destruct (value flow_dir n) as [d|]; [|done].
  destruct (bool_decide (0 ≤ d ≤ 7)) eqn:Ed; [|done].
  intros [= <-]. apply bool_decide_eq_true in Ed. eauto.
Qed.

Lemma elem_of_pointing_at (flow_dir : raster Z) (c n : cell) :
  n ∈ pointing_at flow_dir c ↔ d8_target flow_dir n = Some c.
Proof.
  unfold pointing_at. rewrite list_elem_of_filter. split; [tauto|].
  intros H. split; [done|].
  apply d8_target_valid in H as (d & Hd & _ & ->).
  apply list_elem_of_fmap. exists (REVERSE_DIRECTION d).
  split; [by rewrite neighbor_reverse|].
  apply elem_of_seqZ. unfold REVERSE_DIRECTION.
  pose proof (Z.mod_pos_bound (d + 4) 8). lia.
Qed.

Lemma NoDup_pointing_at (flow_dir : raster Z) (c : cell) :
  NoDup (pointing_at flow_dir c).
Proof. apply NoDup_filter, NoDup_neighbors. Qed.

Lemma pointing_at_in_grid (flow_dir : raster Z) (c n : cell) :
  n ∈ pointing_at flow_dir c →
  n ∈ grid_cells (n_rows flow_dir) (n_cols flow_dir).
Proof.
  intros H. apply elem_of_pointing_at, d8_target_valid in H
    as (d & _ & Hv & _).
  apply elem_of_grid_cells. by eapply value_in_grid.
Qed.

Lemma SQRT2_pos : (0 < SQRT2)%Qc.
Proof. by vm_compute. Qed.

Lemma hop_cost_d8_pos (flow_dir : raster Z) (n : cell) :
  (0 < hop_cost_d8 flow_dir None n)%Qc.
Proof.
  unfold hop_cost_d8. destruct (value flow_dir n) as [d|]; [|by vm_compute].
  destruct (is_diagonal d); [apply SQRT2_pos|by vm_compute].
Qed.

Lemma in_grid_true {A : Type} (g : raster A) (c : cell) :
  in_grid g c = true ↔ c ∈ grid_cells (n_rows g) (n_cols g).
Proof.
  rewrite elem_of_grid_cells. unfold in_grid.
  rewrite !andb_true_iff, !Z.leb_le, !Z.ltb_lt. tauto.
Qed.

Lemma elem_of_channel_cells (channel : raster Z) (c : cell) :
  c ∈ channel_cells channel ↔ is_channel channel c = true.
Proof.
  unfold channel_cells. rewrite list_elem_of_filter. split; [tauto|].
  intros H. split; [done|]. unfold is_channel in H.
  apply andb_true_iff in H as [H _]. by apply in_grid_true.
Qed.

Section DistanceD8.

Variables flow_dir channel : raster Z.
Variable weights : option (raster Qc).

Hypothesis same_rows : n_rows channel = n_rows flow_dir.
Hypothesis same_cols : n_cols channel = n_cols flow_dir.

Let nodes := grid_cells (n_rows flow_dir) (n_cols flow_dir).
Let seeds := channel_cells channel.
Let out := distance_to_channel_d8 flow_dir channel weights.

Lemma distance_d8_closed :
  (∀ c, c ∈ seeds → cells out !! c = Some 0%Qc) ∧
  (∀ c n, is_Some (cells out !! c) → d8_target flow_dir n = Some c →
          is_Some (cells out !! n)).
Proof.
  subst out. unfold distance_to_channel_d8. cbn [cells float64_output].
  fold seeds. fold nodes.
  set (spread := λ (c : cell) (v : Qc) (n : cell),
                   (v + hop_cost_d8 flow_dir weights n)%Qc).
  assert (Hseed : ∀ c, is_Some (tabulate (λ _, 0%Qc) seeds !! c) ↔ c ∈ seeds).
  { intros c. rewrite tabulate_lookup. destruct (decide (c ∈ seeds)).
    - split; [done|]. eauto.
    - split; [by intros [? ?]|done]. }
  assert (Hnd : NoDup seeds) by apply NoDup_filter, NoDup_grid_cells.
  assert (Hsub : ∀ c, c ∈ seeds → c ∈ nodes).
  { intros c Hc. apply list_elem_of_filter in Hc as [_ Hc].
    subst nodes. by rewrite <- same_rows, <- same_cols. }
  destruct (flood_drains (pointing_at flow_dir) spread pop_first
              (@pop_first_perm Qc) (@pop_first_none Qc)
              (NoDup_pointing_at flow_dir) nodes
              (NoDup_grid_cells _ _) (pointing_at_in_grid flow_dir)
              (length nodes) seeds (tabulate (λ _, 0%Qc) seeds))
    as [_ (_ & _ & _ & Hcl)].
  - split; [done|]. split; [|split].
    + intros c Hc. by apply Hseed.
    + intros c Hc. by apply Hsub, Hseed.
    + intros c Hc. left. by apply Hseed.
  - pose proof (filter_remove_list_length (λ _, True) nodes seeds
                  (NoDup_grid_cells _ _) Hnd) as Hcount.
    assert (Hall : filter (λ _ : cell, True) nodes = nodes).
    { clear. induction nodes as [|a l IH]; [done|].
      by rewrite filter_cons_True, IH. }
    rewrite Hall in Hcount.
    rewrite (list_filter_iff _ (λ x, True ∧ x ∉ seeds)).
    + rewrite <- Hcount by auto. lia.
    + intros x. rewrite eq_None_not_Some, Hseed. tauto.
  - split.
    + intros c Hc. apply flood_extends; [apply NoDup_pointing_at|].
      by rewrite tabulate_lookup, decide_True.
    + intros c n Hc Hn. destruct (Hcl c Hc) as [Hq|Hall].
      * by apply elem_of_nil in Hq.
      * by apply Hall, elem_of_pointing_at.
Qed.

Lemma distance_d8_reached (c t : cell) :
  tc (d8_step flow_dir) c t → is_Some (cells out !! t) →
  is_Some (cells out !! c).
Proof.
  destruct distance_d8_closed as [_ Hcl].
  induction 1 as [x y Hxy|x y z Hxy _ IH]; intros Ht.
  - by apply (Hcl y x).
  - apply (Hcl y x); [by apply IH|done].
Qed.

Lemma distance_d8_sign :
  (∀ n, in_grid flow_dir n = true →
        (0 < hop_cost_d8 flow_dir weights n)%Qc) →
  ∀ c v, cells out !! c = Some v →
         (0 ≤ v)%Qc ∧ (c ∉ seeds → (0 < v)%Qc).
Proof.
  intros Hhop. subst out. unfold distance_to_channel_d8.
  cbn [cells float64_output]. fold seeds.
  apply (flood_invariant (pointing_at flow_dir) _ pop_first
           (λ m, ∀ c v, m !! c = Some v →
                        (0 ≤ v)%Qc ∧ (c ∉ seeds → (0 < v)%Qc))).
  - intros m c v n HP Hc Hn Hnone x vx.
    destruct (decide (n = x)) as [->|Hne].
    + rewrite lookup_insert_eq. intros [= <-].
      destruct (HP c v Hc) as [Hv _].
      assert (0 < hop_cost_d8 flow_dir weights x)%Qc
        by (apply Hhop, in_grid_true; by eapply pointing_at_in_grid).
      assert (0 < v + hop_cost_d8 flow_dir weights x)%Qc
        by (by apply Qcplus_nonneg_pos).
      split; [by apply Qclt_le_weak|done].
    + rewrite lookup_insert_ne by done. apply HP.
  - intros c v. rewrite tabulate_lookup.
    destruct (decide (c ∈ seeds)); [|done]. intros [= <-].
    split; [apply Qcle_refl|done].
Qed.

End DistanceD8.

(** *** Values *)

Lemma Zc_nonneg (z : Z) : 0 ≤ z → (0 ≤ Zc z)%Qc.
Proof.
  intros Hz. unfold Zc, Qcle. simpl. rewrite (Qred_correct (inject_Z z)).
  unfold Qle. simpl. lia.
Qed.

Lemma Zc_pos (z : Z) : 0 < z → (0 < Zc z)%Qc.
Proof.
  intros Hz. unfold Zc, Qclt. simpl. rewrite (Qred_correct (inject_Z z)).
  unfold Qlt. simpl. lia.
Qed.

Lemma Zc_zero : Zc 0 = 0%Qc.
Proof. by apply Qc_is_canon. Qed.

Lemma Qcinv_pos (b : Qc) : (0 < b)%Qc → (0 < / b)%Qc.
Proof.
  unfold Qclt. simpl. rewrite (Qred_correct (/ b)). apply Qinv_lt_0_compat.
Qed.

Lemma Qcdiv_pos (a b : Qc) : (0 < a)%Qc → (0 < b)%Qc → (0 < a / b)%Qc.
Proof. intros Ha Hb. apply Qcmult_pos_pos; [done|by apply Qcinv_pos]. Qed.

Lemma Qcle_pos_or_zero (a : Qc) : (0 ≤ a)%Qc → (0 < a)%Qc ∨ a = 0%Qc.
Proof.
  intros Ha. destruct (Qc_eq_dec a 0%Qc) as [->|Hne]; [auto|]. left.
  apply Qcnot_le_lt. intros Hle. apply Hne. by apply Qcle_antisym.
Qed.

(** *** Multiple flow directions *)

Lemma mfd_field_range (v i : Z) : 0 ≤ mfd_field v i ≤ 15.
Proof.
  assert (E : mfd_field v i = (v ≫ (4 * i)) `mod` 16).
  { unfold mfd_field. change 15 with (Z.ones 4). by rewrite Z.land_ones. }
  rewrite E. pose proof (Z.mod_pos_bound (v ≫ (4 * i)) 16). lia.
Qed.

Lemma direction_between_Some (s t : cell) (d : Z) :
  direction_between s t = Some d → 0 ≤ d ≤ 7 ∧ neighbor s d = t.
Proof.
  unfold direction_between. intros H. apply head_Some_elem_of in H.
  apply list_elem_of_filter in H as [H1 H2].
  apply elem_of_seqZ in H2. split; [lia|done].
Qed.

Lemma mfd_field_to_nonneg (flow_dir : raster Z) (s t : cell) :
  0 ≤ mfd_field_to flow_dir s t.
Proof.
  unfold mfd_field_to. destruct (direction_between s t); [|done].
  apply mfd_field_range.
Qed.

Lemma mfd_field_to_neighbor (flow_dir : raster Z) (s t : cell) :
  0 < mfd_field_to flow_dir s t → s ∈ neighbor t <$> directions.
Proof.
  unfold mfd_field_to. destruct (direction_between s t) as [d|] eqn:E; [|lia].
  intros _. apply direction_between_Some in E as [Hd <-].
  apply list_elem_of_fmap. exists (REVERSE_DIRECTION d).
  split; [by rewrite neighbor_reverse|].
  apply elem_of_seqZ. unfold REVERSE_DIRECTION.
  pose proof (Z.mod_pos_bound (d + 4) 8). lia.
Qed.

Lemma elem_of_mfd_sources (flow_dir channel : raster Z) (q u : cell) :
  u ∈ mfd_sources flow_dir channel q ↔ mfd_drains_to flow_dir channel u q.
Proof.
  unfold mfd_sources. rewrite list_elem_of_filter. split; [tauto|].
  intros H. split; [done|]. destruct H as (_ & _ & H).
  by eapply mfd_field_to_neighbor.
Qed.

Lemma NoDup_mfd_sources (flow_dir channel : raster Z) (q : cell) :
  NoDup (mfd_sources flow_dir channel q).
Proof. apply NoDup_filter, NoDup_neighbors. Qed.

Lemma mfd_sources_closed (flow_dir channel : raster Z) (q u : cell) :
  q ∈ grid_cells (n_rows flow_dir) (n_cols flow_dir) →
  u ∈ mfd_sources flow_dir channel q →
  u ∈ grid_cells (n_rows flow_dir) (n_cols flow_dir).
Proof.
  intros _ H. apply elem_of_mfd_sources in H as (H & _). by apply in_grid_true.
Qed.

(** *** Distance to channel, MFD *)

Lemma mfd_field_to_in_grid (flow_dir : raster Z) (u q : cell) :
  0 < mfd_field_to flow_dir u q → in_grid flow_dir u = true.
Proof.
  unfold mfd_field_to, mfd_value.
  destruct (direction_between u q) as [d|]; [|lia].
  destruct (value flow_dir u) as [v|] eqn:E.
  - intros _. apply in_grid_true, elem_of_grid_cells.
    by eapply value_in_grid.
  - cbn. unfold mfd_field. rewrite Z.shiftr_0_l, Z.land_0_l. lia.
Qed.

Lemma hop_cost_d8_positive (flow_dir : raster Z) (weights : option (raster Qc))
  (n : cell) :
  positive_weights flow_dir weights → in_grid flow_dir n = true →
  (0 < hop_cost_d8 flow_dir weights n)%Qc.
Proof.
  destruct weights as [w|]; [|intros _ _; apply hop_cost_d8_pos].
  intros Hw Hn. by apply Hw.
Qed.

Lemma hop_cost_mfd_positive (flow_dir : raster Z)
  (weights : option (raster Qc)) (u q : cell) :
  positive_weights flow_dir weights → in_grid flow_dir u = true →
  (0 < hop_cost_mfd weights u q)%Qc.
Proof.
  destruct weights as [w|]; [intros Hw Hu; by apply Hw|]. intros _ _.
  unfold hop_cost_mfd. destruct (direction_between u q) as [d|]; [|by vm_compute].
  destruct (is_diagonal d); [apply SQRT2_pos|by vm_compute].
Qed.

Lemma mfd_distance_sign (channel : raster Z) (c : cell) (a : Qc * Qc)
  (d : Qc) :
  mfd_sign a → mfd_distance channel c a = Some d →
  (0 ≤ d)%Qc ∧ (is_channel channel c = false → (0 < d)%Qc).
Proof.
  intros (Hn & Hd & Hpos). unfold mfd_distance.
  destruct (is_channel channel c).
  - intros [= <-]. split; [apply Qcle_refl|done].
  - destruct (decide (a.2 = 0%Qc)) as [|Hne]; [done|]. intros [= <-].
    assert (0 < a.2)%Qc by (destruct (Qcle_pos_or_zero _ Hd); done).
    assert (0 < a.1 / a.2)%Qc by (apply Qcdiv_pos; auto).
    split; [by apply Qclt_le_weak|done].
Qed.

Section DistanceMFD.

Variables flow_dir channel : raster Z.
Variable weights : option (raster Qc).
Hypothesis hop_pos :
  ∀ u q, in_grid flow_dir u = true → (0 < hop_cost_mfd weights u q)%Qc.

Lemma mfd_push_sign (q u : cell) (a_q a_u : Qc * Qc) :
  mfd_sign a_q → mfd_sign a_u →
  mfd_sign (mfd_push flow_dir channel weights q u a_q a_u).
Proof.
  intros Hq Hu. unfold mfd_push.
  destruct (mfd_distance channel q a_q) as [d|] eqn:Ed; [|done].
  destruct (mfd_distance_sign channel q a_q d Hq Ed) as [Hd _].
  destruct Hu as (Hn & Hden & Hpos).
  pose proof (mfd_field_to_nonneg flow_dir u q) as Hf.
  unfold mfd_sign. cbn [fst snd].
  destruct (decide (mfd_field_to flow_dir u q = 0)) as [Hf0|Hfne].
  - rewrite Hf0, Zc_zero.
    replace (a_u.1 + 0 * (d + hop_cost_mfd weights u q))%Qc with a_u.1 by ring.
    replace (a_u.2 + 0)%Qc with a_u.2 by ring. done.
  - assert (Hfz : 0 < mfd_field_to flow_dir u q) by lia.
    assert (Hfp : (0 < Zc (mfd_field_to flow_dir u q))%Qc) by by apply Zc_pos.
    assert (Hdh : (0 < d + hop_cost_mfd weights u q)%Qc).
    { apply Qcplus_nonneg_pos; [done|].
      by apply hop_pos, mfd_field_to_in_grid with q. }
    assert (0 < Zc (mfd_field_to flow_dir u q)
                * (d + hop_cost_mfd weights u q))%Qc
      by (by apply Qcmult_pos_pos).
    assert (0 < a_u.1 + Zc (mfd_field_to flow_dir u q)
                        * (d + hop_cost_mfd weights u q))%Qc
      by (by apply Qcplus_nonneg_pos).
    split; [by apply Qclt_le_weak|]. split; [|done].
    apply Qcplus_nonneg_nonneg; [done|]. by apply Qclt_le_weak.
Qed.

(** In the accumulator gathered from the cells [seen], the sum of fields
    is positive as soon as one of them is a cell that [c] drains to and
    that has a distance. *)
Lemma gather_mfd_den (m : gmap cell (Qc * Qc)) (seen : list cell) (c : cell) :
  let g := gather (mfd_sources flow_dir channel)
                  (mfd_push flow_dir channel weights)
                  (λ _, (0%Qc, 0%Qc)) m seen c in
  (0 ≤ g.2)%Qc ∧
  ((∃ q a, q ∈ seen ∧ mfd_drains_to flow_dir channel c q ∧
           m !! q = Some a ∧ is_Some (mfd_distance channel q a)) →
   (0 < g.2)%Qc).
Proof.
  induction seen as [|s seen IH]; cbn zeta.
  - split; [apply Qcle_refl|]. intros (q & a & Hq & _). by apply elem_of_nil in Hq.
  - destruct IH as [IH0 IHpos]. unfold gather in *. cbn [foldr].
    set (g := foldr _ _ seen) in *.
    destruct (decide (c ∈ mfd_sources flow_dir channel s)) as [Hc|Hc].
    + apply elem_of_mfd_sources in Hc.
      assert (Hf : (0 < Zc (mfd_field_to flow_dir c s))%Qc)
        by (apply Zc_pos; apply Hc).
      destruct (m !! s) as [a_s|] eqn:Es.
      * unfold mfd_push.
        destruct (mfd_distance channel s a_s) as [d|] eqn:Ed; cbn [fst snd].
        -- assert (0 < g.2 + Zc (mfd_field_to flow_dir c s))%Qc
             by (by apply Qcplus_nonneg_pos).
           split; [by apply Qclt_le_weak|done].
        -- split; [done|]. intros (q & a & Hq & Hdr & Hm & Hsome).
           apply IHpos. exists q, a. apply elem_of_cons in Hq as [->|Hq].
           ++ rewrite Es in Hm. injection Hm as <-. rewrite Ed in Hsome.
              by destruct Hsome.
           ++ done.
      * split; [done|]. intros (q & a & Hq & Hdr & Hm & Hsome).
        apply IHpos. exists q, a. apply elem_of_cons in Hq as [->|Hq]; [congruence|done].
    + split; [done|]. intros (q & a & Hq & Hdr & Hm & Hsome).
      apply IHpos. exists q, a. apply elem_of_cons in Hq as [->|Hq]; [|done].
      exfalso. by apply Hc, elem_of_mfd_sources.
Qed.

Lemma distance_to_channel_mfd_spec :
  acyclic_mfd flow_dir channel →
  ∃ out : raster Qc,
    distance_to_channel_mfd flow_dir channel weights = Some out ∧
    dtype out = Float64 ∧
    (∀ c, in_grid flow_dir c = true → is_channel channel c = true →
          cells out !! c = Some 0%Qc) ∧
    (∀ c t, tc (mfd_drains_to flow_dir channel) c t →
            is_Some (cells out !! t) → is_Some (cells out !! c)) ∧
    (∀ c v, cells out !! c = Some v →
            (0 ≤ v)%Qc ∧ (is_channel channel c = false → (0 < v)%Qc)).
Proof.
  intros Hacyc. unfold distance_to_channel_mfd.
  set (nodes := grid_cells (n_rows flow_dir) (n_cols flow_dir)).
  destruct (run_propagation_spec nodes (mfd_sources flow_dir channel)
              (mfd_push flow_dir channel weights) (λ _, (0%Qc, 0%Qc))
              (NoDup_grid_cells _ _) (NoDup_mfd_sources flow_dir channel)
              (mfd_sources_closed flow_dir channel) Hacyc)
    as (m & order & Hrun & Hperm & Hacc & Hout).
  rewrite Hrun. cbn [fmap option_fmap option_map].
  exists (float64_output flow_dir (map_imap (mfd_distance channel) m)).
  cbn [cells dtype float64_output].
  assert (Hsign : ∀ c a, m !! c = Some a → mfd_sign a).
  { apply (run_propagation_preserves nodes (mfd_sources flow_dir channel)
             (mfd_push flow_dir channel weights) (λ _, (0%Qc, 0%Qc))
             (λ _ a, mfd_sign a) m); [|..|done].
    - intros s t a_s a_t. apply mfd_push_sign.
    - intros c _. repeat split; cbn; try apply Qcle_refl. done. }
  assert (Hnode : ∀ c, is_Some (m !! c) ↔ c ∈ nodes).
  { intros c. split.
    - intros Hc. destruct (decide (c ∈ nodes)) as [|Hn]; [done|].
      rewrite (Hout c Hn) in Hc. by destruct Hc.
    - intros Hc. rewrite (Hacc c Hc). eauto. }
  split; [done|]. split; [done|]. split; [|split].
  - intros c Hg Hch. rewrite map_lookup_imap.
    destruct (proj2 (Hnode c)) as [a Ha]; [by apply in_grid_true|].
    rewrite Ha. cbn. unfold mfd_distance. by rewrite Hch.
  - intros c t Hpath. induction Hpath as [x y Hxy|x y z Hxy _ IH]; intros Hy.
    + rewrite !map_lookup_imap in *.
      destruct (m !! y) as [a_y|] eqn:Ey; [|by destruct Hy]. cbn in Hy.
      assert (Hx : x ∈ nodes) by (apply in_grid_true, Hxy).
      rewrite (Hacc x Hx). cbn.
      destruct (gather_mfd_den m order x) as [_ Hpos].
      unfold mfd_distance. destruct Hxy as (Hgx & Hcx & Hfx).
      rewrite Hcx. rewrite decide_False; [eauto|].
      intros H0. assert (Hlt : (0 < 0)%Qc); [|by vm_compute in Hlt].
      rewrite <- H0 at 2. apply Hpos. exists y, a_y.
      split; [|done]. rewrite Hperm. apply Hnode. eauto.
    + specialize (IH Hy). clear Hy.
      rewrite !map_lookup_imap in *.
      destruct (m !! y) as [a_y|] eqn:Ey; [|by destruct IH]. cbn in IH.
      assert (Hx : x ∈ nodes) by (apply in_grid_true, Hxy).
      rewrite (Hacc x Hx). cbn.
      destruct (gather_mfd_den m order x) as [_ Hpos].
      unfold mfd_distance at 1. destruct Hxy as (Hgx & Hcx & Hfx).
      rewrite Hcx. rewrite decide_False; [eauto|].
      intros H0. assert (Hlt : (0 < 0)%Qc); [|by vm_compute in Hlt].
      rewrite <- H0 at 2. apply Hpos. exists y, a_y.
      split; [|done]. rewrite Hperm. apply Hnode. eauto.
  - intros c v. rewrite map_lookup_imap.
    destruct (m !! c) as [a|] eqn:Ea; [|done]. cbn.
    apply mfd_distance_sign. by eapply Hsign.
Qed.

End DistanceMFD.

Lemma acyclic_by_rank_on (P : cell → Prop) (targets : cell → list cell)
  (rank : cell → Z) :
  (∀ s t, t ∈ targets s → P t) →
  (∀ s t, P s → t ∈ targets s → rank s < rank t) →
  acyclic targets.
Proof.
  intros HP Hrank c Hc.
  assert (Hend : ∀ x y, tc (flows_to targets) x y → P y).
  { induction 1 as [x y Hxy|x y z _ _ IH]; [by eapply HP|done]. }
  assert (H : ∀ x y, tc (flows_to targets) x y → P x → rank x < rank y).
  { induction 1 as [x y Hxy|x y z Hxy Hyz IH]; intros Hx.
    - by apply Hrank.
    - specialize (Hrank x y Hx Hxy).
      assert (P y) by (by eapply HP). specialize (IH ltac:(done)). lia. }
  specialize (H c c Hc (Hend c c Hc)). lia.
Qed.

Lemma rank_increases_mfd_acyclic (flow_dir channel : raster Z)
  (rank : cell → Z) :
  rank_increases_mfd flow_dir channel rank = true →
  acyclic_mfd flow_dir channel.
Proof.
  intros Hok.
  apply (acyclic_by_rank_on (λ c, in_grid flow_dir c = true) _ rank).
  - intros s t Ht. by apply elem_of_mfd_sources in Ht as [? _].
  - intros s t Hs Ht. unfold rank_increases_mfd in Hok.
    rewrite forallb_forall in Hok.
    apply in_grid_true, list_elem_of_In in Hs. specialize (Hok s Hs).
    rewrite forallb_forall in Hok.
    apply list_elem_of_In in Ht. specialize (Hok t Ht). lia.
Qed.

Lemma in_grid_same_shape {A B : Type} (g : raster A) (h : raster B) (c : cell) :
  n_rows g = n_rows h → n_cols g = n_cols h → in_grid g c = in_grid h c.
Proof. unfold in_grid. by intros -> ->. Qed.

(** C3: for either routing, when the channel grid has the shape of the
    direction grid (and, for MFD, the direction graph cut at the channel
    cells has no cycle) and every hop has a positive cost, as the default
    geometric lengths have and as a weight raster has that is positive at
    every cell of the grid, [distance_to_channel] gives distance exactly 0
    to every channel cell and a strictly positive distance to every cell
    that is no channel and from which one or more downstream hops lead to
    a channel cell. *)
Theorem distance_to_channel_zero_and_positive (mode : flow_mode)
  (flow_dir channel : raster Z) (weights : option (raster Qc)) :
  n_rows channel = n_rows flow_dir →
  n_cols channel = n_cols flow_dir →
  routable mode flow_dir channel →
  positive_weights flow_dir weights →
  ∃ out : raster Qc,
    distance_to_channel mode flow_dir channel weights = Some out ∧
    (∀ c, is_channel channel c = true → cells out !! c = Some 0%Qc) ∧
    (∀ c t, is_channel channel c = false →
            tc (downstream_step mode flow_dir channel) c t →
            is_channel channel t = true →
            ∃ v, cells out !! c = Some v ∧ (0 < v)%Qc).
Proof.
  intros Hrows Hcols Hroute Hw. destruct mode; cbn [distance_to_channel
    downstream_step routable] in *.
  - exists (distance_to_channel_d8 flow_dir channel weights).
    destruct (distance_d8_closed flow_dir channel weights Hrows Hcols)
      as [Hzero _].
    split; [done|]. split.
    + intros c Hc. by apply Hzero, elem_of_channel_cells.
    + intros c t Hc Hpath Ht.
      destruct (distance_d8_reached flow_dir channel weights Hrows Hcols
                  c t Hpath) as [v Hv].
      { rewrite Hzero; [eauto|]. by apply elem_of_channel_cells. }
      exists v. split; [done|].
      apply (distance_d8_sign flow_dir channel weights
               (λ n, hop_cost_d8_positive flow_dir weights n Hw) c v Hv).
      rewrite elem_of_channel_cells. congruence.
  - destruct (distance_to_channel_mfd_spec flow_dir channel weights
                (λ u q, hop_cost_mfd_positive flow_dir weights u q Hw) Hroute)
      as (out & Hrun & _ & Hzero & Hreach & Hsign).
    assert (Hin : ∀ c, is_channel channel c = true →
                       in_grid flow_dir c = true).
    { intros c Hc. unfold is_channel in Hc.
      apply andb_true_iff in Hc as [Hc _].
      by rewrite <- (in_grid_same_shape channel flow_dir). }
    exists out. split; [done|]. split.
    + intros c Hc. apply Hzero; auto.
    + intros c t Hc Hpath Ht.
      destruct (Hreach c t Hpath) as [v Hv].
      { rewrite Hzero; eauto. }
      exists v. split; [done|]. by apply (Hsign c v Hv).
Qed.

Lemma uniform_raster_positive (flow_dir : raster Z) (v : Qc) :
  (0 < v)%Qc → positive_weights flow_dir (Some (uniform_raster flow_dir v)).
Proof.
  intros Hv c Hc. unfold uniform_raster. cbn [cells].
  rewrite tabulate_lookup, decide_True by (by apply in_grid_true). done.
Qed.

Lemma channel_mfd_acyclic : acyclic_mfd channel_mfd row5_channel.
Proof. apply (rank_increases_mfd_acyclic _ _ rows_from_row5). by vm_compute. Qed.

Lemma distance_to_channel_zero_and_positive_witness :
  (∃ out : raster Qc,
     distance_to_channel D8 plateau_flow_dir_d8 border_channel None
     = Some out ∧
     cells out !! (0%Z, 0%Z) = Some 0%Qc ∧
     ∃ v, cells out !! (5%Z, 5%Z) = Some v ∧ (0 < v)%Qc) ∧
  (∃ out : raster Qc,
     distance_to_channel MFD channel_mfd row5_channel None = Some out ∧
     cells out !! (5%Z, 0%Z) = Some 0%Qc ∧
     ∃ v, cells out !! (3%Z, 2%Z) = Some v ∧ (0 < v)%Qc) ∧
  (∃ out : raster Qc,
     distance_to_channel D8 plateau_flow_dir_d8 border_channel
       (Some (uniform_raster plateau_flow_dir_d8 (Q2Qc 2)))
     = Some out ∧
     ∃ v, cells out !! (1%Z, 1%Z) = Some v ∧ (0 < v)%Qc).
Proof.
  split; [|split].
  - destruct (distance_to_channel_zero_and_positive D8 plateau_flow_dir_d8
                border_channel None eq_refl eq_refl I I)
      as (out & Hrun & Hzero & Hpos).
    exists out. split; [exact Hrun|]. split.
    + apply Hzero. by vm_compute.
    + apply (Hpos (5, 5) (0, 5)); [by vm_compute| |by vm_compute].
      cbn [downstream_step].
      eapply tc_l, tc_l, tc_l, tc_l, tc_once;
        [instantiate (1 := (4, 5))|instantiate (1 := (3, 5))
        |instantiate (1 := (2, 5))|instantiate (1 := (1, 5))|];
        by vm_compute.
  - destruct (distance_to_channel_zero_and_positive MFD channel_mfd
                row5_channel None eq_refl eq_refl channel_mfd_acyclic I)
      as (out & Hrun & Hzero & Hpos).
    exists out. split; [exact Hrun|]. split.
    + apply Hzero. by vm_compute.
    + apply (Hpos (3, 2) (5, 2)); [by vm_compute| |by vm_compute].
      cbn [downstream_step].
      eapply tc_l, tc_once; [instantiate (1 := (4, 2))|];
        (split; [by vm_compute|split; by vm_compute]).
  - assert (H2 : (0 < Q2Qc 2)%Qc) by (by vm_compute).
    destruct (distance_to_channel_zero_and_positive D8 plateau_flow_dir_d8
                border_channel
                (Some (uniform_raster plateau_flow_dir_d8 (Q2Qc 2)))
                eq_refl eq_refl I
                (uniform_raster_positive plateau_flow_dir_d8 (Q2Qc 2) H2))
      as (out & Hrun & _ & Hpos).
    exists out. split; [exact Hrun|].
    apply (Hpos (1, 1) (0, 1)); [by vm_compute| |by vm_compute].
    cbn [downstream_step]. apply tc_once. by vm_compute.
Defined.

(** *** The distance regressions *)



(** *** Scaling the weights *)


Section PropagateMap.

Context {A B : Type}.
Variable h : A → B.
Variable nodes : list cell.
Variable targets : cell → list cell.
Variable push1 : cell → cell → A → A → A.
Variable push2 : cell → cell → B → B → B.
Variable init1 : cell → A.
Variable init2 : cell → B.

Hypothesis init_h : ∀ c, init2 c = h (init1 c).
Hypothesis push_h :
  ∀ s t a_s a_t, push2 s t (h a_s) (h a_t) = h (push1 s t a_s a_t).






End PropagateMap.

Section FloodMap.

Context {V W : Type}.
Variable h : V → W.
Variable nbrs : cell → list cell.
Variable spread1 : cell → V → cell → V.
Variable spread2 : cell → W → cell → W.
Variable pop1 : gmap cell V → list cell → option (cell * list cell).
Variable pop2 : gmap cell W → list cell → option (cell * list cell).

Hypothesis pop_h : ∀ m q, pop2 (h <$> m) q = pop1 m q.
Hypothesis spread_h : ∀ c v n, spread2 c (h v) n = h (spread1 c v n).




End FloodMap.












End RoutingProps.

(** ** Routing on binary64 values *)

Module Routing64Props.
Import Routing Routing64 RoutingProps.
Import PrimFloat.
Local Open Scope Z_scope.

(** *** Scaling the weights, in binary64 *)



End Routing64Props.
